(** * Evolution-chain flattening and type effectiveness of lib/api.ts

    A shallow embedding of [formatEvolutionDetails], [flattenEvolutionChain]
    and [calculateTypeEffectiveness] together with the JavaScript string
    primitives they call, followed by the properties of these functions.

    Conventions of the embedding.
    - A JavaScript string is a [string] holding its UTF-8 bytes.  Splitting
      on "/" and replacing "-" act on single ASCII bytes, which never occur
      inside a multi-byte sequence, so both agree with the code-unit
      semantics of JavaScript.
    - The result of [parseInt] is [NaN] or an integer.  The only use of the
      result is the test [evoId <= LETS_GO_MAX_POKEMON]; rounding a long
      digit string to a double is monotone and cannot move a value across
      151, so the exact integer decides the test like the double does.
    - [Record<string, number>] is a [gmap string Qc].  The multipliers the
      code computes are 0 and powers of two, which doubles represent
      exactly (for exponents below 1022 in absolute value), hence exact
      rational arithmetic.  Keys are PokeAPI type names; properties that a
      JavaScript object inherits from [Object.prototype] are not modelled. *)

From Stdlib Require Import Ascii QArith Qcanon Sorted.
From stdpp Require Import gmap strings list fin_maps pretty.

Local Open Scope Z_scope.

(** ** JavaScript string primitives *)

Module JS.

Definition code (c : ascii) : Z := Z.of_N (N_of_ascii c).

(** [s.split(sep)] for a one-character separator: never the empty array,
    the empty string splits into the array holding the empty string. *)
Fixpoint split (sep : ascii) (s : string) : list string :=
  match s with
  | EmptyString => [EmptyString]
  | String c rest =>
      if Ascii.eqb c sep then EmptyString :: split sep rest
      else match split sep rest with
           | hd :: tl => String c hd :: tl
           | [] => [String c EmptyString]
           end
  end.

(** [Boolean(s)] on a string: only the empty string is falsy. *)
Definition truthy (s : string) : bool :=
  match s with EmptyString => false | String _ _ => true end.

(** [arr.filter(Boolean)] *)
Definition filterBoolean (l : list string) : list string :=
  List.filter truthy l.

(** [arr.pop()]: the last element, [None] for undefined. *)
Definition pop (l : list string) : option string := last l.

(** The result of [parseInt]. *)
Inductive number := NaN | Int (z : Z).

(** [a <= b] with an integer right operand: false for NaN. *)
Definition leb (a : number) (b : Z) : bool :=
  match a with NaN => false | Int z => z <=? b end.

(** White space skipped by [parseInt] (WhiteSpace and LineTerminator of
    ECMAScript), by the length of its UTF-8 encoding. *)
Definition ws1 (a : Z) : bool :=
  ((9 <=? a) && (a <=? 13)) || (a =? 32).

(* U+00A0 *)
Definition ws2 (a b : Z) : bool := (a =? 194) && (b =? 160).

(* U+1680, U+2000..U+200A, U+2028, U+2029, U+202F, U+205F, U+3000, U+FEFF *)
Definition ws3 (a b c : Z) : bool :=
  ((a =? 225) && (b =? 154) && (c =? 128))
  || ((a =? 226) && (b =? 128)
        && (((128 <=? c) && (c <=? 138)) || (c =? 168) || (c =? 169)
            || (c =? 175)))
  || ((a =? 226) && (b =? 129) && (c =? 159))
  || ((a =? 227) && (b =? 128) && (c =? 128))
  || ((a =? 239) && (b =? 187) && (c =? 191)).

Fixpoint skipWhiteSpace (s : string) : string :=
  match s with
  | EmptyString => s
  | String c1 r1 =>
      if ws1 (code c1) then skipWhiteSpace r1
      else match r1 with
           | EmptyString => s
           | String c2 r2 =>
               if ws2 (code c1) (code c2) then skipWhiteSpace r2
               else match r2 with
                    | EmptyString => s
                    | String c3 r3 =>
                        if ws3 (code c1) (code c2) (code c3)
                        then skipWhiteSpace r3
                        else s
                    end
           end
      end.

(** Value of a character as a digit: 0-9, then a-z and A-Z from 10. *)
Definition digitValue (c : ascii) : option Z :=
  let n := code c in
  if (48 <=? n) && (n <=? 57) then Some (n - 48)
  else if (97 <=? n) && (n <=? 122) then Some (n - 87)
  else if (65 <=? n) && (n <=? 90) then Some (n - 55)
  else None.

Definition radixDigit (R : Z) (c : ascii) : option Z :=
  match digitValue c with
  | Some d => if d <? R then Some d else None
  | None => None
  end.

(** The longest prefix of radix-[R] digits, as an integer; [acc] is [None]
    until a digit has been read. *)
Fixpoint parseDigits (R : Z) (acc : option Z) (s : string) : option Z :=
  match s with
  | EmptyString => acc
  | String c rest =>
      match radixDigit R c with
      | Some d => parseDigits R (Some (default 0 acc * R + d)) rest
      | None => acc
      end
  end.

(** [parseInt(s)] with no radix argument: leading white space, an optional
    sign, an optional 0x / 0X prefix selecting radix 16, then the longest
    prefix of digits; NaN when that prefix is empty. *)
Definition parseInt (s : string) : number :=
  let s1 := skipWhiteSpace s in
  let '(sign, s2) :=
    match s1 with
    | String "-" r => (-1, r)
    | String "+" r => (1, r)
    | _ => (1, s1)
    end in
  let '(R, s3) :=
    match s2 with
    | String "0" (String "x" r) => (16, r)
    | String "0" (String "X" r) => (16, r)
    | _ => (10, s2)
    end in
  match parseDigits R None s3 with
  | None => NaN
  | Some n => Int (sign * n)
  end.

(** [c.toUpperCase()] on one character, for the ASCII letters; the names
    PokeAPI returns are lower-case ASCII, other characters are kept. *)
Definition toUpperCase (c : ascii) : ascii :=
  let n := code c in
  if (97 <=? n) && (n <=? 122) then ascii_of_N (Z.to_N (n - 32)) else c.

(** [s.replace(/-/g, " ")] *)
Fixpoint replaceHyphens (s : string) : string :=
  match s with
  | EmptyString => EmptyString
  | String c rest =>
      String (if Ascii.eqb c "-" then " "%char else c) (replaceHyphens rest)
  end.

(** The text a template literal inserts for an integer number. *)
Definition toString (n : Z) : string := pretty n.

End JS.

(** ** Data model (types/pokemon.ts) *)

Record NamedAPIResource := {
  name : string;
  url : string
}.

Record EvolutionDetail := {
  trigger : NamedAPIResource;
  item : option NamedAPIResource;
  min_level : option Z;
  min_happiness : option Z;
  time_of_day : string;
  held_item : option NamedAPIResource;
  known_move : option NamedAPIResource;
  location : option NamedAPIResource
}.

#[local] Unset Elimination Schemes.
Inductive ChainLink := {
  species : NamedAPIResource;
  evolution_details : list EvolutionDetail;
  evolves_to : list ChainLink;
  is_baby : bool
}.
#[local] Set Elimination Schemes.

Record TypeDamageRelations := {
  double_damage_from : list NamedAPIResource;
  double_damage_to : list NamedAPIResource;
  half_damage_from : list NamedAPIResource;
  half_damage_to : list NamedAPIResource;
  no_damage_from : list NamedAPIResource;
  no_damage_to : list NamedAPIResource
}.

Record TypePokemon := {
  tp_pokemon : NamedAPIResource;
  slot : Z
}.

Record PokemonTypeData := {
  id : Z;
  td_name : string;
  damage_relations : TypeDamageRelations;
  pokemon : list TypePokemon
}.

Definition LETS_GO_MAX_POKEMON : Z := 151.

(** The fields [name] and [url] of [FlatEvolution] are [fe_name] and
    [fe_url] here, the field [name] of [PokemonTypeData] is [td_name] and
    the field [pokemon] of its entries is [tp_pokemon]: Rocq keeps one
    projection per name. *)
Record FlatEvolution := {
  fe_name : string;
  fe_url : string;
  minLevel : option Z;
  details : list EvolutionDetail
}.

(** ** Utility helpers *)

(** [capitalize]: the empty string for a falsy argument, else the first
    character in upper case followed by the rest. *)
Definition capitalize (str : string) : string :=
  match str with
  | EmptyString => EmptyString
  | String c rest => String (JS.toUpperCase c) rest
  end.

(** ** Evolution chain functions *)

Definition humanize (n : string) : string :=
  capitalize (JS.replaceHyphens n).

(** Truthiness of a [number | null] field: [null] and 0 are falsy. *)
Definition truthyNumber (n : option Z) : option Z :=
  match n with
  | Some z => if z =? 0 then None else Some z
  | None => None
  end.

(** [formatEvolutionDetails]: the label of the first entry.  The cases of
    the [switch] on the trigger name are the branches of the conditional; a
    case that ends in [break] takes [fallback], the statement after the
    [switch]. *)
Definition formatEvolutionDetails (details : list EvolutionDetail) : string :=
  match details with
  | [] => EmptyString
  | d :: _ =>
      let fallback := humanize (name (trigger d)) in
      if String.eqb (name (trigger d)) "level-up" then
        match truthyNumber (min_level d) with
        | Some lv => "Lv. " +:+ JS.toString lv
        | None =>
            match truthyNumber (min_happiness d) with
            | Some h => "Happiness ≥ " +:+ JS.toString h
            | None =>
                if JS.truthy (time_of_day d) then capitalize (time_of_day d)
                else match location d with
                     | Some loc => capitalize (name loc)
                     | None => fallback
                     end
            end
        end
      else if String.eqb (name (trigger d)) "use-item" then
        match item d with
        | Some it => humanize (name it)
        | None => fallback
        end
      else if String.eqb (name (trigger d)) "trade" then
        match held_item d with
        | Some it => "Trade holding " +:+ humanize (name it)
        | None => "Trade"
        end
      else humanize (name (trigger d))
  end.

(** [u.split("/").filter(Boolean).pop()]: the trailing non-empty segment
    of a URL, [None] (undefined) when there is none. *)
Definition trailingSegment (u : string) : option string :=
  JS.pop (JS.filterBoolean (JS.split "/" u)).

(** [parseInt(u.split("/").filter(Boolean).pop() ?? "0")] *)
Definition urlId (u : string) : JS.number :=
  JS.parseInt (default "0" (trailingSegment u)).

(** [evoId] of a link, read off its species URL. *)
Definition evoId (link : ChainLink) : JS.number := urlId (url (species link)).

(** The test [evoId <= LETS_GO_MAX_POKEMON] that guards the push. *)
Definition included (link : ChainLink) : bool :=
  JS.leb (evoId link) LETS_GO_MAX_POKEMON.

(** The object pushed for a link. *)
Definition stageOf (link : ChainLink) : FlatEvolution :=
  {| fe_name := name (species link);
     fe_url := url (species link);
     minLevel := head (evolution_details link) ≫= min_level;
     details := evolution_details link |}.

(** The recursive helper; [result] is the array it pushes to, threaded
    through the calls. *)
Fixpoint traverse (link : ChainLink) (result : list FlatEvolution)
  : list FlatEvolution :=
  let result1 :=
    if included link
    then result ++ [stageOf link]
    else result in
  match link with
  | Build_ChainLink _ _ children _ =>
      fold_left (fun acc child => traverse child acc) children result1
  end.

Definition flattenEvolutionChain (chain : ChainLink) : list FlatEvolution :=
  traverse chain [].

(** ** Type functions *)

(** Numbers: the literals 0 and 1 are [0%Qc] and [1%Qc], the literal 2 is
    [Qc_of_Z 2], and 0.5 is [half]. *)
Definition half : Qc := Q2Qc (1 # 2).

(** [effectiveness[name] ?? 1] *)
Definition current (effectiveness : gmap string Qc) (n : string) : Qc :=
  default 1%Qc (effectiveness !! n).

(** [effectiveness[name] = (effectiveness[name] ?? 1) * q] *)
Definition multiplyBy (q : Qc) (effectiveness : gmap string Qc)
    (r : NamedAPIResource) : gmap string Qc :=
  <[name r := (current effectiveness (name r) * q)%Qc]> effectiveness.

Definition applyDouble := multiplyBy (Qc_of_Z 2).

Definition applyHalf := multiplyBy half.

(** [effectiveness[name] = 0] *)
Definition applyImmunity (effectiveness : gmap string Qc)
    (r : NamedAPIResource) : gmap string Qc :=
  <[name r := 0%Qc]> effectiveness.

(** One iteration of the loop over [typeDataList]. *)
Definition applyType (effectiveness : gmap string Qc)
    (typeData : PokemonTypeData) : gmap string Qc :=
  let dr := damage_relations typeData in
  let e1 := fold_left applyDouble (double_damage_from dr) effectiveness in
  let e2 := fold_left applyHalf (half_damage_from dr) e1 in
  fold_left applyImmunity (no_damage_from dr) e2.

Definition calculateTypeEffectiveness (typeDataList : list PokemonTypeData)
  : gmap string Qc :=
  fold_left applyType typeDataList ∅.

(** * Definitions used to state the properties *)

(** ** Induction over chains

    [ChainLink] is nested through [list]; the principle gives the property
    for all children of a link as the induction hypothesis. *)
Section ChainLink_induction.

Variable P : ChainLink → Prop.
Hypothesis Hlink : ∀ s d children b,
  Forall P children → P (Build_ChainLink s d children b).

Fixpoint ChainLink_ind' (link : ChainLink) : P link :=
  match link with
  | Build_ChainLink s d children b =>
      Hlink s d children b
        ((fix all (cs : list ChainLink) : Forall P cs :=
            match cs with
            | [] => List.Forall_nil P
            | c :: cs' => List.Forall_cons P c cs' (ChainLink_ind' c) (all cs')
            end) children)
  end.

End ChainLink_induction.

(** The manual pre-order listing of a tree: the root, then the listing of
    each child's subtree, in child order. *)
Fixpoint preorder (link : ChainLink) : list ChainLink :=
  match link with
  | Build_ChainLink _ _ children _ => link :: flat_map preorder children
  end.

(** [reaches l d]: [d] is [l] or one of its descendants. *)
Inductive reaches : ChainLink → ChainLink → Prop :=
| reaches_self l : reaches l l
| reaches_child l c d : c ∈ evolves_to l → reaches c d → reaches l d.

(** The stages pushed for a list of links. *)
Definition stagesOf (links : list ChainLink) : list FlatEvolution :=
  stageOf <$> List.filter included links.

(** ** Concrete chains *)

Definition resource (n u : string) : NamedAPIResource :=
  {| name := n; url := u |}.

Definition speciesResource (n segment : string) : NamedAPIResource :=
  resource n ("https://pokeapi.co/api/v2/pokemon-species/" +:+ segment +:+ "/").

Definition itemResource (n : string) : NamedAPIResource :=
  resource n ("https://pokeapi.co/api/v2/item/" +:+ n +:+ "/").

Definition detail (trig : string) : EvolutionDetail :=
  {| trigger := resource trig ("https://pokeapi.co/api/v2/evolution-trigger/" +:+ trig +:+ "/");
     item := None; min_level := None; min_happiness := None;
     time_of_day := EmptyString; held_item := None; known_move := None;
     location := None |}.

Definition withItem (n : string) (d : EvolutionDetail) : EvolutionDetail :=
  {| trigger := trigger d; item := Some (itemResource n);
     min_level := min_level d; min_happiness := min_happiness d;
     time_of_day := time_of_day d; held_item := held_item d;
     known_move := known_move d; location := location d |}.

Definition withMinLevel (lv : Z) (d : EvolutionDetail) : EvolutionDetail :=
  {| trigger := trigger d; item := item d;
     min_level := Some lv; min_happiness := min_happiness d;
     time_of_day := time_of_day d; held_item := held_item d;
     known_move := known_move d; location := location d |}.

Definition withMinHappiness (h : Z) (d : EvolutionDetail) : EvolutionDetail :=
  {| trigger := trigger d; item := item d;
     min_level := min_level d; min_happiness := Some h;
     time_of_day := time_of_day d; held_item := held_item d;
     known_move := known_move d; location := location d |}.

Definition withHeldItem (n : string) (d : EvolutionDetail) : EvolutionDetail :=
  {| trigger := trigger d; item := item d;
     min_level := min_level d; min_happiness := min_happiness d;
     time_of_day := time_of_day d; held_item := Some (itemResource n);
     known_move := known_move d; location := location d |}.

(** pichu (172) -> pikachu (25) -> raichu (26): the root lies outside the
    Let's Go range, its descendants inside. *)
Definition raichuLink : ChainLink :=
  {| species := speciesResource "raichu" "26";
     evolution_details := [withItem "thunder-stone" (detail "use-item")];
     evolves_to := []; is_baby := false |}.

Definition pikachuLink : ChainLink :=
  {| species := speciesResource "pikachu" "25";
     evolution_details := [withMinHappiness 220 (detail "level-up")];
     evolves_to := [raichuLink]; is_baby := false |}.

Definition pichuChain : ChainLink :=
  {| species := speciesResource "pichu" "172";
     evolution_details := [];
     evolves_to := [pikachuLink]; is_baby := true |}.

(** bulbasaur (1) -> ivysaur (2) -> venusaur (3) *)
Definition venusaurLink : ChainLink :=
  {| species := speciesResource "venusaur" "3";
     evolution_details := [withMinLevel 32 (detail "level-up")];
     evolves_to := []; is_baby := false |}.

Definition ivysaurLink : ChainLink :=
  {| species := speciesResource "ivysaur" "2";
     evolution_details := [withMinLevel 16 (detail "level-up")];
     evolves_to := [venusaurLink]; is_baby := false |}.

Definition bulbasaurChain : ChainLink :=
  {| species := speciesResource "bulbasaur" "1";
     evolution_details := [];
     evolves_to := [ivysaurLink]; is_baby := false |}.

(** A link whose species URL ends in a name instead of a number, and one
    whose species URL has no segment at all. *)
Definition namedUrlLink : ChainLink :=
  {| species := speciesResource "pikachu" "pikachu";
     evolution_details := []; evolves_to := []; is_baby := false |}.

Definition emptyUrlLink : ChainLink :=
  {| species := resource "missingno" EmptyString;
     evolution_details := []; evolves_to := [raichuLink]; is_baby := false |}.

(** ** Reading a damage-relation table *)

(** The literal 0.25, the product of two halves. *)
Definition quarter : Qc := Q2Qc (1 # 4).

(** The multiplier sets {0, 0.5, 1, 2} and {0, 0.25, 0.5, 1, 2, 4}. *)
Definition singleTypeMultipliers : list Qc :=
  [0%Qc; half; 1%Qc; Qc_of_Z 2].

Definition dualTypeMultipliers : list Qc :=
  [0%Qc; quarter; half; 1%Qc; Qc_of_Z 2; Qc_of_Z 4].

(** Number of entries of a list that name [k]. *)
Fixpoint occurrences (k : string) (l : list NamedAPIResource) : nat :=
  match l with
  | [] => 0
  | r :: l' => (if decide (name r = k) then 1 else 0) + occurrences k l'
  end.

(** The names listed in the three "from" lists of a table. *)
Definition typeNames (typeData : PokemonTypeData) : list string :=
  let dr := damage_relations typeData in
  name <$> (double_damage_from dr ++ half_damage_from dr ++ no_damage_from dr).

(** The factor one table contributes for the attacking type [k]: 0 when
    the table lists [k] as dealing no damage, else one factor 2 per entry in
    [double_damage_from] and one factor 0.5 per entry in
    [half_damage_from]. *)
Definition typeFactor (typeData : PokemonTypeData) (k : string) : Qc :=
  let dr := damage_relations typeData in
  if decide (k ∈ name <$> no_damage_from dr) then 0%Qc
  else (Qc_of_Z 2 ^ occurrences k (double_damage_from dr)
        * half ^ occurrences k (half_damage_from dr))%Qc.

Fixpoint combinedFactor (typeDataList : list PokemonTypeData) (k : string)
  : Qc :=
  match typeDataList with
  | [] => 1%Qc
  | typeData :: rest => (typeFactor typeData k * combinedFactor rest k)%Qc
  end.

(** Each type name occurs at most once across the three "from" lists. *)
Definition distinctEntries (typeData : PokemonTypeData) : Prop :=
  NoDup (typeNames typeData).

(** [effectiveness] starts as the object literal [{}], which inherits the
    properties of [Object.prototype].  For one of the names below,
    [effectiveness[name]] is a function or an object before the first
    assignment, so [?? 1] does not apply and the product with 2 or 0.5 is
    [NaN]; and [effectiveness["__proto__"] = 0] goes to the inherited setter,
    which ignores a number and stores no key.  For every other name the
    object is the map of its own keys, read with the default 1. *)
Definition objectPrototypeNames : list string :=
  [ "constructor"; "__defineGetter__"; "__defineSetter__"; "hasOwnProperty";
    "__lookupGetter__"; "__lookupSetter__"; "isPrototypeOf";
    "propertyIsEnumerable"; "toString"; "valueOf"; "__proto__";
    "toLocaleString" ].

(** No table lists a property name of [Object.prototype]. *)
Definition plainNames (typeDataList : list PokemonTypeData) : Prop :=
  Forall (λ k, k ∉ objectPrototypeNames) (typeDataList ≫= typeNames).

(** The raw damage relation of a single table for the attacking type [k]. *)
Definition rawRelation (typeData : PokemonTypeData) (k : string)
  : option Qc :=
  let dr := damage_relations typeData in
  if decide (k ∈ name <$> double_damage_from dr) then Some (Qc_of_Z 2)
  else if decide (k ∈ name <$> half_damage_from dr) then Some half
  else if decide (k ∈ name <$> no_damage_from dr) then Some 0%Qc
  else None.

(** ** Concrete tables (the "from" lists of PokeAPI's water and ground) *)

Definition typeResource (n : string) : NamedAPIResource :=
  resource n ("https://pokeapi.co/api/v2/type/" +:+ n +:+ "/").

Definition typeTable (n : string) (double half none : list string)
  : PokemonTypeData :=
  {| id := 0; td_name := n;
     damage_relations :=
       {| double_damage_from := typeResource <$> double;
          double_damage_to := [];
          half_damage_from := typeResource <$> half;
          half_damage_to := [];
          no_damage_from := typeResource <$> none;
          no_damage_to := [] |};
     pokemon := [] |}.

Definition waterType : PokemonTypeData :=
  typeTable "water" ["grass"; "electric"] ["steel"; "fire"; "water"; "ice"] [].

Definition groundType : PokemonTypeData :=
  typeTable "ground" ["water"; "grass"; "ice"] ["poison"; "rock"] ["electric"].

(** * Further definitions: the rest of lib/api.ts and its callers

    The remaining pure functions of lib/api.ts ([formatPokemonId],
    [formatName], [getSpriteUrl], [getLetsGoMoves], [cleanFlavorText],
    [getEnglishFlavorText], the clamping of [getPokemonList] and the
    filtering of [searchPokemon]), the page arithmetic and the page bar of
    app/pokedex/page.tsx, and the state updates of the team builder.  What
    these functions fetch is a parameter of the model: the functions are
    embedded on the data the requests resolve to. *)

(** ** Utility helpers, continued *)

(** [s.padStart(targetLength, fill)] for a one-character [fill]. *)
Fixpoint repeatChar (n : nat) (fill : ascii) : string :=
  match n with
  | O => EmptyString
  | S n' => String fill (repeatChar n' fill)
  end.

Definition padStart (targetLength : nat) (fill : ascii) (s : string)
  : string :=
  repeatChar (targetLength - String.length s) fill +:+ s.

(** [formatPokemonId], for an integer [id]. *)
Definition formatPokemonId (id : Z) : string :=
  "#" +:+ padStart 3 "0" (JS.toString id).

(** ** Decimal digit strings (used to state and prove properties) *)

Definition isDecimal (c : ascii) : bool :=
  (48 <=? JS.code c) && (JS.code c <=? 57).

Fixpoint allDecimal (s : string) : bool :=
  match s with
  | EmptyString => true
  | String c r => isDecimal c && allDecimal r
  end.

(** The number a digit string denotes, continuing from [acc]. *)
Fixpoint decimalValue (acc : Z) (s : string) : Z :=
  match s with
  | EmptyString => acc
  | String c r => decimalValue (acc * 10 + (JS.code c - 48)) r
  end.

(** Whether a string holds the character [c]. *)
Fixpoint hasChar (c : ascii) (s : string) : bool :=
  match s with
  | EmptyString => false
  | String c' r => Ascii.eqb c' c || hasChar c r
  end.

(** [arr.join(sep)] *)
Fixpoint join (sep : string) (l : list string) : string :=
  match l with
  | [] => EmptyString
  | [x] => x
  | x :: rest => x +:+ sep +:+ join sep rest
  end.

(** [formatName]: [str.split("-").map(capitalize).join(" ")] *)
Definition formatName (str : string) : string :=
  join " " (capitalize <$> JS.split "-" str).

(** Character by character: a hyphen becomes a space, and the character
    at the start or after a hyphen is put in upper case ([start] tells
    whether the next character begins a word). *)
Fixpoint capitalizeWords (start : bool) (s : string) : string :=
  match s with
  | EmptyString => EmptyString
  | String c r =>
      if Ascii.eqb c "-" then String " " (capitalizeWords true r)
      else String (if start then JS.toUpperCase c else c)
             (capitalizeWords false r)
  end.

(** ** Moves (types/pokemon.ts and [getLetsGoMoves]) *)

Definition LETS_GO_VERSION_GROUP : string := "lets-go-pikachu-lets-go-eevee".

Definition LETS_GO_VERSION : string := "lets-go-pikachu".

Record MoveVersionGroupDetail := {
  level_learned_at : Z;
  move_learn_method : NamedAPIResource;
  version_group : NamedAPIResource
}.

Record PokemonMove := {
  move : NamedAPIResource;
  version_group_details : list MoveVersionGroupDetail
}.

(** The elements of the array [getLetsGoMoves] returns; its fields [name]
    and [url] are [lm_name] and [lm_url] here. *)
Record LetsGoMove := {
  lm_name : string;
  lm_url : string;
  learnMethod : string;
  level : Z
}.

(** [arr.sort(compareFn)]: the stable sort that ECMAScript prescribes for
    a consistent comparison function, by insertion.  An element goes in
    front of the first element it does not compare greater than, so equal
    elements keep their order. *)
Fixpoint insertSorted {A} (compareFn : A → A → Z) (x : A) (l : list A)
  : list A :=
  match l with
  | [] => [x]
  | y :: l' =>
      if compareFn x y <=? 0 then x :: l else y :: insertSorted compareFn x l'
  end.

Definition sortWith {A} (compareFn : A → A → Z) (l : list A) : list A :=
  foldr (insertSorted compareFn) [] l.

Section LetsGoMoves.

(** [a.localeCompare(b)] depends on the locale of the runtime; it is a
    parameter of the model. *)
Variable localeCompare : string → string → Z.

(** [moveEntry.version_group_details.find(...)] *)
Definition letsGoDetail (moveEntry : PokemonMove)
  : option MoveVersionGroupDetail :=
  List.find
    (λ detail, String.eqb (name (version_group detail)) LETS_GO_VERSION_GROUP)
    (version_group_details moveEntry).

(** The body of the loop over [pokemon.moves]. *)
Definition pushLetsGoMove (letsGoMoves : list LetsGoMove)
    (moveEntry : PokemonMove) : list LetsGoMove :=
  match letsGoDetail moveEntry with
  | Some detail =>
      letsGoMoves
      ++ [{| lm_name := name (move moveEntry);
             lm_url := url (move moveEntry);
             learnMethod := name (move_learn_method detail);
             level := level_learned_at detail |}]
  | None => letsGoMoves
  end.

Definition isLevelUp (m : LetsGoMove) : bool :=
  String.eqb (learnMethod m) "level-up".

(** The comparison function handed to [sort]. *)
Definition compareMoves (a b : LetsGoMove) : Z :=
  if isLevelUp a && negb (isLevelUp b) then -1
  else if negb (isLevelUp a) && isLevelUp b then 1
  else if isLevelUp a && isLevelUp b then level a - level b
  else localeCompare (lm_name a) (lm_name b).

(** [getLetsGoMoves]; [pokemonMoves] is [pokemon.moves], the only field of
    its argument that the function reads. *)
Definition getLetsGoMoves (pokemonMoves : list PokemonMove)
  : list LetsGoMove :=
  sortWith compareMoves (fold_left pushLetsGoMove pokemonMoves []).

End LetsGoMoves.

(** The move a [moveEntry] contributes, if any. *)
Definition letsGoMoveOf (moveEntry : PokemonMove) : option LetsGoMove :=
  (λ detail,
     {| lm_name := name (move moveEntry);
        lm_url := url (move moveEntry);
        learnMethod := name (move_learn_method detail);
        level := level_learned_at detail |}) <$> letsGoDetail moveEntry.

(** [a] may stand before [b] in the sorted list: a level-up move is only
    preceded by level-up moves of at most its level. *)
Definition mayPrecede (a b : LetsGoMove) : Prop :=
  isLevelUp b = true → isLevelUp a = true ∧ level a ≤ level b.

(** Pikachu's moves, in part: thunder-shock at level 1 and quick-attack at
    level 6 in Let's Go, thunderbolt by machine, and mega-punch, which only
    earlier games have. *)
Definition moveDetail (lv : Z) (method group : string)
  : MoveVersionGroupDetail :=
  {| level_learned_at := lv;
     move_learn_method :=
       resource method
         ("https://pokeapi.co/api/v2/move-learn-method/" +:+ method +:+ "/");
     version_group :=
       resource group
         ("https://pokeapi.co/api/v2/version-group/" +:+ group +:+ "/") |}.

Definition moveEntryOf (n : string) (ds : list MoveVersionGroupDetail)
  : PokemonMove :=
  {| move := resource n ("https://pokeapi.co/api/v2/move/" +:+ n +:+ "/");
     version_group_details := ds |}.

Definition pikachuMoves : list PokemonMove :=
  [ moveEntryOf "mega-punch" [moveDetail 0 "machine" "red-blue"];
    moveEntryOf "thunderbolt"
      [moveDetail 26 "level-up" "red-blue";
       moveDetail 0 "machine" LETS_GO_VERSION_GROUP];
    moveEntryOf "quick-attack"
      [moveDetail 6 "level-up" LETS_GO_VERSION_GROUP];
    moveEntryOf "thunder-shock"
      [moveDetail 1 "level-up" "red-blue";
       moveDetail 1 "level-up" LETS_GO_VERSION_GROUP] ].

(** ** Arithmetic on [JS.number]: a NaN operand gives NaN *)

Module JSMath.

Definition lift2 (f : Z → Z → Z) (a b : JS.number) : JS.number :=
  match a, b with
  | JS.Int x, JS.Int y => JS.Int (f x y)
  | _, _ => JS.NaN
  end.

(** [Math.max(a, b)] and [Math.min(a, b)] *)
Definition max : JS.number → JS.number → JS.number := lift2 Z.max.

Definition min : JS.number → JS.number → JS.number := lift2 Z.min.

(** [a - b] and [a * b] *)
Definition sub : JS.number → JS.number → JS.number := lift2 Z.sub.

Definition mul : JS.number → JS.number → JS.number := lift2 Z.mul.

(** The text a template literal inserts for a number. *)
Definition toString (a : JS.number) : string :=
  match a with
  | JS.NaN => "NaN"
  | JS.Int x => JS.toString x
  end.

End JSMath.

(** ** Pokemon list functions and the Pokedex page (app/pokedex/page.tsx) *)

Definition PAGE_SIZE : Z := 20.

(** [Math.min(limit, LETS_GO_MAX_POKEMON - offset)] *)
Definition clampedLimit (limit offset : JS.number) : JS.number :=
  JSMath.min limit (JSMath.sub (JS.Int LETS_GO_MAX_POKEMON) offset).

(** The endpoint [getPokemonList] fetches. *)
Definition getPokemonListEndpoint (limit offset : JS.number) : string :=
  "/pokemon?limit=" +:+ JSMath.toString (clampedLimit limit offset)
  +:+ "&offset=" +:+ JSMath.toString offset.

(** [Math.max(1, parseInt(params.page ?? "1"))] *)
Definition currentPage (page : option string) : JS.number :=
  JSMath.max (JS.Int 1) (JS.parseInt (default "1" page)).

(** [(currentPage - 1) * PAGE_SIZE] *)
Definition pageOffset (current : JS.number) : JS.number :=
  JSMath.mul (JSMath.sub current (JS.Int 1)) (JS.Int PAGE_SIZE).

(** The limit of the request that browsing a page sends:
    [getPokemonListWithDetails(PAGE_SIZE, offset)]. *)
Definition pageLimit (current : JS.number) : JS.number :=
  clampedLimit (JS.Int PAGE_SIZE) (pageOffset current).

(** [Math.ceil(totalCount / PAGE_SIZE)] for an integer count. *)
Definition totalPages (totalCount : Z) : Z :=
  - ((- totalCount) `div` PAGE_SIZE).

(** The entries of the page bar: page numbers and "...". *)
Inductive PageItem := Ellipsis | PageNumber (page : Z).

(** The filter of the page bar: the first page, the last page and the pages
    within 1 of the current page. *)
Definition shownPage (total : Z) (current : JS.number) (page : Z) : bool :=
  (page =? 1) || (page =? total)
  || match current with
     | JS.NaN => false
     | JS.Int c => Z.abs (page - c) <=? 1
     end.

(** The [reduce] of the page bar; [prev] is [arr[idx - 1]], absent at
    index 0. *)
Fixpoint withEllipses (prev : option Z) (pages : list Z) : list PageItem :=
  match pages with
  | [] => []
  | page :: rest =>
      (match prev with
       | Some q => if 1 <? page - q then [Ellipsis] else []
       | None => []
       end)
      ++ PageNumber page :: withEllipses (Some page) rest
  end.

(** [Array.from({ length: totalPages }, (_, i) => i + 1).filter(...)
    .reduce(...)] *)
Definition pageItems (total : Z) (current : JS.number) : list PageItem :=
  withEllipses None
    (filter (λ page, shownPage total current page) (seqZ 1 total)).

Definition pageNumberOf (item : PageItem) : option Z :=
  match item with
  | PageNumber page => Some page
  | Ellipsis => None
  end.

(** The pages before which the [reduce] puts "...". *)
Fixpoint gapPages (prev : option Z) (pages : list Z) : list Z :=
  match pages with
  | [] => []
  | page :: rest =>
      (match prev with
       | Some q => if 1 <? page - q then [page] else []
       | None => []
       end)
      ++ gapPages (Some page) rest
  end.

(** ** More string primitives

    As before a string holds UTF-8 bytes; [trimEnd] and [includes] work on
    bytes, which agrees with JavaScript on well-formed text because no byte
    that starts a white-space character continues another character. *)

Module JSString.

(** Whether a string consists of white space only. *)
Definition isBlank (s : string) : bool :=
  match JS.skipWhiteSpace s with
  | EmptyString => true
  | String _ _ => false
  end.

(** [s.trimEnd()]: the white space at the end is dropped. *)
Fixpoint trimEnd (s : string) : string :=
  match s with
  | EmptyString => EmptyString
  | String c r => if isBlank s then EmptyString else String c (trimEnd r)
  end.

(** [s.trim()] *)
Definition trim (s : string) : string := trimEnd (JS.skipWhiteSpace s).

(** [s.toLowerCase()] for the ASCII letters; other characters are kept. *)
Definition lowerChar (c : ascii) : ascii :=
  let n := JS.code c in
  if (65 <=? n) && (n <=? 90) then ascii_of_N (Z.to_N (n + 32)) else c.

Fixpoint toLowerCase (s : string) : string :=
  match s with
  | EmptyString => EmptyString
  | String c r => String (lowerChar c) (toLowerCase r)
  end.

(** [s.startsWith(sub)] and [s.includes(sub)] *)
Fixpoint startsWith (s sub : string) : bool :=
  match sub, s with
  | EmptyString, _ => true
  | String a sub', String b s' => Ascii.eqb a b && startsWith s' sub'
  | String _ _, EmptyString => false
  end.

Fixpoint includes (s sub : string) : bool :=
  startsWith s sub
  || match s with
     | EmptyString => false
     | String _ r => includes r sub
     end.

End JSString.

(** ** The team builder (components/TeamBuilder.tsx) *)

(** The fields [id] and [name] of [TeamMember] are [tm_id] and [tm_name]. *)
Record TeamMember := {
  tm_id : Z;
  tm_name : string;
  sprite : option string;
  types : list string;
  addedAt : Z;
  nickname : option string
}.

Definition MAX_TEAM_SIZE : nat := 6.

Inductive SpriteKind := Sprite | Artwork.

(** [getSpriteUrl(id, type = "sprite")] for an integer id. *)
Definition getSpriteUrl (id : Z) (kind : SpriteKind) : string :=
  match kind with
  | Artwork =>
      "https://raw.githubusercontent.com/PokeAPI/sprites/master/sprites/pokemon/other/official-artwork/"
      +:+ JS.toString id +:+ ".png"
  | Sprite =>
      "https://raw.githubusercontent.com/PokeAPI/sprites/master/sprites/pokemon/"
      +:+ JS.toString id +:+ ".png"
  end.

(** [addToTeam], as the new value of the [team] state.  [team] is the state
    the guards read (the value the component rendered with), [prev] the
    state the update [setTeam((prev) => [...prev, newMember])] is applied
    to; [fetchedTypes] are the type names of the fetched Pokemon and [now]
    is [Date.now()].  When a guard returns early no update is made. *)
Definition addToTeam (team : list TeamMember) (pokemonId : Z) (n : string)
    (fetchedTypes : list string) (now : Z) (prev : list TeamMember)
  : list TeamMember :=
  if (MAX_TEAM_SIZE <=? length team)%nat then prev
  else if existsb (λ m, tm_id m =? pokemonId) team then prev
  else prev ++ [{| tm_id := pokemonId;
                   tm_name := n;
                   sprite := Some (getSpriteUrl pokemonId Sprite);
                   types := fetchedTypes;
                   addedAt := now;
                   nickname := None |}].

(** [removeFromTeam]: [prev.filter((m) => m.id !== pokemonId)] *)
Definition removeFromTeam (pokemonId : Z) (prev : list TeamMember)
  : list TeamMember :=
  List.filter (λ m, negb (tm_id m =? pokemonId)) prev.

(** [nicknameInput.trim() || undefined] *)
Definition nicknameOf (nicknameInput : string) : option string :=
  match JSString.trim nicknameInput with
  | EmptyString => None
  | String c r => Some (String c r)
  end.

(** [saveNickname]: the update of the [team] state. *)
Definition saveNickname (pokemonId : Z) (nicknameInput : string)
    (prev : list TeamMember) : list TeamMember :=
  (λ m, if tm_id m =? pokemonId
        then {| tm_id := tm_id m; tm_name := tm_name m; sprite := sprite m;
                types := types m; addedAt := addedAt m;
                nickname := nicknameOf nicknameInput |}
        else m) <$> prev.

(** What the user can do to the team, and the effect on the state when
    every action reads the state it is applied to. *)
Inductive TeamAction :=
| AddMember (pokemonId : Z) (n : string) (fetchedTypes : list string)
    (now : Z)
| RemoveMember (pokemonId : Z)
| SaveNickname (pokemonId : Z) (nicknameInput : string).

Definition applyTeamAction (team : list TeamMember) (a : TeamAction)
  : list TeamMember :=
  match a with
  | AddMember pokemonId n fetchedTypes now =>
      addToTeam team pokemonId n fetchedTypes now team
  | RemoveMember pokemonId => removeFromTeam pokemonId team
  | SaveNickname pokemonId nicknameInput =>
      saveNickname pokemonId nicknameInput team
  end.

(** At most six members, with distinct ids. *)
Definition validTeam (team : list TeamMember) : Prop :=
  (length team ≤ MAX_TEAM_SIZE)%nat ∧ NoDup (tm_id <$> team).

(** ** Flavor text *)

Record FlavorTextEntry := {
  flavor_text : string;
  language : NamedAPIResource;
  version : NamedAPIResource
}.

(** [s.replace(/c/g, " ")] for a one-byte character [c]. *)
Fixpoint replaceByteWithSpace (c : ascii) (s : string) : string :=
  match s with
  | EmptyString => EmptyString
  | String c' r =>
      String (if Ascii.eqb c' c then " "%char else c')
        (replaceByteWithSpace c r)
  end.

(** [s.replace(/\s+/g, " ")]: every maximal run of white-space characters
    becomes one space.  [inRun] tells that the characters just before were
    white space, for which the space has been written already. *)
Fixpoint replaceWhiteSpaceRuns (inRun : bool) (s : string) : string :=
  match s with
  | EmptyString => EmptyString
  | String c1 r1 =>
      let space x := if inRun then x else String " " x in
      if JS.ws1 (JS.code c1) then space (replaceWhiteSpaceRuns true r1)
      else match r1 with
           | EmptyString => String c1 (replaceWhiteSpaceRuns false r1)
           | String c2 r2 =>
               if JS.ws2 (JS.code c1) (JS.code c2)
               then space (replaceWhiteSpaceRuns true r2)
               else match r2 with
                    | EmptyString =>
                        String c1 (replaceWhiteSpaceRuns false r1)
                    | String c3 r3 =>
                        if JS.ws3 (JS.code c1) (JS.code c2) (JS.code c3)
                        then space (replaceWhiteSpaceRuns true r3)
                        else String c1 (replaceWhiteSpaceRuns false r1)
                    end
           end
  end.

(** [cleanFlavorText]; form feed is byte 12 and newline byte 10. *)
Definition cleanFlavorText (text : string) : string :=
  JSString.trim
    (replaceWhiteSpaceRuns false
       (replaceByteWithSpace "010"
          (replaceByteWithSpace "012" text))).

(** [getEnglishFlavorText] *)
Definition getEnglishFlavorText (entries : list FlavorTextEntry) : string :=
  match List.find
          (λ entry, String.eqb (name (language entry)) "en"
                    && String.eqb (name (version entry)) LETS_GO_VERSION)
          entries with
  | Some letsGoEntry => cleanFlavorText (flavor_text letsGoEntry)
  | None =>
      match List.find (λ entry, String.eqb (name (language entry)) "en")
              entries with
      | Some englishEntry => cleanFlavorText (flavor_text englishEntry)
      | None => EmptyString
      end
  end.

(** The length in bytes of the white-space character a string starts
    with, 0 when it starts with none. *)
Definition wsLen (s : string) : nat :=
  match s with
  | EmptyString => 0
  | String c1 r1 =>
      if JS.ws1 (JS.code c1) then 1
      else match r1 with
           | EmptyString => 0
           | String c2 r2 =>
               if JS.ws2 (JS.code c1) (JS.code c2) then 2
               else match r2 with
                    | EmptyString => 0
                    | String c3 r3 =>
                        if JS.ws3 (JS.code c1) (JS.code c2) (JS.code c3)
                        then 3 else 0
                    end
           end
  end.

(** [dropBytes n s]: [s] without its first [n] bytes. *)
Fixpoint dropBytes (n : nat) (s : string) : string :=
  match n, s with
  | S n', String _ r => dropBytes n' r
  | _, _ => s
  end.

(** Text in which white space occurs only as single spaces: at every
    position either a space stands, followed by something that is not white
    space (or by the end, when [final] allows it), or no white-space
    character starts. *)
Fixpoint spaced (final : bool) (s : string) : bool :=
  match s with
  | EmptyString => true
  | String c r =>
      (if Ascii.eqb c " "
       then (wsLen r =? 0)%nat
            && (final || match r with EmptyString => false | _ => true end)
       else (wsLen s =? 0)%nat)
      && spaced final r
  end.

(** Clean text: single spaces only, and none at the start or the end. *)
Definition cleanText (s : string) : bool :=
  (wsLen s =? 0)%nat && spaced false s.

(** [follows x r]: the first byte of [x], if any, is a space or the first
    byte of [r]; [approximates x r] says the same of the first two bytes,
    where nothing is asked of what comes after a space. *)
Definition follows (x r : string) : Prop :=
  match x with
  | EmptyString => True
  | String a _ => a = " "%char ∨ ∃ r', r = String a r'
  end.

Definition approximates (x r : string) : Prop :=
  match x with
  | EmptyString => True
  | String a x' => a = " "%char ∨ ∃ r', r = String a r' ∧ follows x' r'
  end.

(** The two tests of [getEnglishFlavorText]. *)
Definition isEnglish (entry : FlavorTextEntry) : bool :=
  String.eqb (name (language entry)) "en".

Definition isLetsGoEnglish (entry : FlavorTextEntry) : bool :=
  String.eqb (name (language entry)) "en"
  && String.eqb (name (version entry)) LETS_GO_VERSION.

Definition flavorEntry (text lang ver : string) : FlavorTextEntry :=
  {| flavor_text := text;
     language := resource lang ("https://pokeapi.co/api/v2/language/" +:+ lang +:+ "/");
     version := resource ver ("https://pokeapi.co/api/v2/version/" +:+ ver +:+ "/") |}.

(** ** Search *)

(** The elements of the array [searchPokemon] resolves to; its fields
    [name], [id] and [url] are [sr_name], [sr_id] and [sr_url]. *)
Record SearchResult := {
  sr_name : string;
  sr_id : JS.number;
  sr_url : string
}.

(** [searchPokemon], given the [results] of the list request.  The request
    is only made when the query is not blank. *)
Definition searchPokemon (query : string) (results : list NamedAPIResource)
  : list SearchResult :=
  if JS.truthy (JSString.trim query) then
    let lowerQuery := JSString.trim (JSString.toLowerCase query) in
    (λ p, {| sr_name := name p; sr_url := url p; sr_id := urlId (url p) |})
      <$> List.filter (λ p, JSString.includes (name p) lowerQuery) results
  else [].

(** The first entries of the list request, in part. *)
Definition pokemonResource (n : string) (id : Z) : NamedAPIResource :=
  resource n ("https://pokeapi.co/api/v2/pokemon/" +:+ JS.toString id +:+ "/").

Definition pokemonList : list NamedAPIResource :=
  [ pokemonResource "bulbasaur" 1; pokemonResource "charmander" 4;
    pokemonResource "charmeleon" 5; pokemonResource "charizard" 6;
    pokemonResource "pikachu" 25; pokemonResource "raichu" 26 ].

(** ** Where the numbers and the letters of the model are those of the code

    JavaScript numbers are doubles and its strings are Unicode text, while
    the model computes with exact integers and rationals and changes the
    case of ASCII letters only.  The two agree in the ranges below, which
    the properties that depend on them assume. *)

(** [Number.MAX_SAFE_INTEGER], 2^53 - 1: up to it every integer is a double,
    [parseInt] reads every digit and [String] writes every digit. *)
Definition MAX_SAFE_INTEGER : Z := 9007199254740991.

(** The number of factors 2 and 0.5 that [calculateTypeEffectiveness]
    multiplies over all tables. *)
Definition factorCount (typeDataList : list PokemonTypeData) : nat :=
  sum_list
    ((λ typeData,
        length (double_damage_from (damage_relations typeData))
        + length (half_damage_from (damage_relations typeData)))%nat
     <$> typeDataList).

(** Starting from 1, a product of up to 1023 factors 2 and 0.5 in any order
    stays a power of two between 2^-1023 and 2^1023, which doubles hold
    exactly: 2^1024 would be [Infinity] and 2^-1075 would be 0. *)
Definition MAX_EXACT_FACTORS : nat := 1023.

(** ASCII text, for which [toUpperCase] and [toLowerCase] change the
    letters A-Z and a-z only and a byte is a UTF-16 code unit. *)
Fixpoint isAscii (s : string) : bool :=
  match s with
  | EmptyString => true
  | String c r => (JS.code c <? 128) && isAscii r
  end.

(** Two members of a team. *)
Definition teamMemberOf (pokemonId : Z) (n : string) (ts : list string)
  : TeamMember :=
  {| tm_id := pokemonId; tm_name := n;
     sprite := Some (getSpriteUrl pokemonId Sprite);
     types := ts; addedAt := 0; nickname := None |}.

Definition starterTeam : list TeamMember :=
  [ teamMemberOf 25 "pikachu" ["electric"];
    teamMemberOf 1 "bulbasaur" ["grass"; "poison"] ].

(** * The primitives on concrete inputs *)

Example split_species_url :
  JS.split "/" "https://pokeapi.co/api/v2/pokemon-species/25/"
  = ["https:"; EmptyString; "pokeapi.co"; "api"; "v2"; "pokemon-species";
     "25"; EmptyString].
Proof. reflexivity. Qed.

Example trailingSegment_species_url :
  trailingSegment "https://pokeapi.co/api/v2/pokemon-species/25/" = Some "25"
  ∧ trailingSegment "//" = None
  ∧ trailingSegment EmptyString = None.
Proof. by repeat split. Qed.

Example parseInt_examples :
  JS.parseInt "25" = JS.Int 25
  ∧ JS.parseInt "  -0x1F" = JS.Int (-31)
  ∧ JS.parseInt "12abc" = JS.Int 12
  ∧ JS.parseInt "0x" = JS.NaN
  ∧ JS.parseInt "abc" = JS.NaN
  ∧ JS.parseInt EmptyString = JS.NaN.
Proof. by repeat split. Qed.

Example humanize_examples :
  humanize "thunder-stone" = "Thunder stone"
  ∧ humanize "level-up" = "Level up"
  ∧ capitalize "night" = "Night".
Proof. by repeat split. Qed.

Example flatten_pichu_chain :
  fe_name <$> flattenEvolutionChain pichuChain = ["pikachu"; "raichu"]
  ∧ fe_name <$> flattenEvolutionChain bulbasaurChain
    = ["bulbasaur"; "ivysaur"; "venusaur"]
  ∧ minLevel <$> flattenEvolutionChain bulbasaurChain
    = [None; Some 16; Some 32].
Proof. by repeat split. Qed.

(** * Properties of the evolution-chain functions *)

Lemma stagesOf_app l1 l2 : stagesOf (l1 ++ l2) = stagesOf l1 ++ stagesOf l2.
Proof. unfold stagesOf. by rewrite List.filter_app, fmap_app. Qed.

Lemma stagesOf_cons link links :
  stagesOf (link :: links)
  = (if included link then [stageOf link] else []) ++ stagesOf links.
Proof. unfold stagesOf. simpl. by destruct (included link). Qed.

Lemma preorder_unfold link :
  preorder link = link :: flat_map preorder (evolves_to link).
Proof. by destruct link. Qed.

Lemma traverse_unfold link result :
  traverse link result
  = fold_left (λ acc child, traverse child acc) (evolves_to link)
      (if included link then result ++ [stageOf link] else result).
Proof. by destruct link. Qed.

(** Pushing never touches what the array already holds: a call appends the
    stages of the pre-order listing of its argument. *)
Lemma traverse_spec link :
  ∀ result, traverse link result = result ++ stagesOf (preorder link).
Proof.
  induction link as [s d children b IH] using ChainLink_ind'.
  assert (Hchildren : ∀ r,
    fold_left (λ acc child, traverse child acc) children r
    = r ++ stagesOf (flat_map preorder children)).
  { induction IH as [|c cs Hc _ IHcs]; intros r; simpl.
    - by rewrite app_nil_r.
    - by rewrite IHcs, Hc, stagesOf_app, app_assoc. }
  intros result. rewrite traverse_unfold, preorder_unfold, stagesOf_cons.
  cbn [evolves_to]. rewrite Hchildren.
  destruct (included _); by rewrite <- ?app_assoc.
Qed.

Lemma flatten_stagesOf chain :
  flattenEvolutionChain chain = stagesOf (preorder chain).
Proof. unfold flattenEvolutionChain. by rewrite traverse_spec. Qed.

Lemma stagesOf_flat_map children :
  stagesOf (flat_map preorder children)
  = concat (flattenEvolutionChain <$> children).
Proof.
  induction children as [|c cs IH]; [done |].
  simpl. by rewrite stagesOf_app, IH, flatten_stagesOf.
Qed.

Lemma reaches_preorder link node : reaches link node ↔ node ∈ preorder link.
Proof.
  split.
  - induction 1 as [l | l c d Hc _ IH].
    + rewrite preorder_unfold. by left.
    + rewrite preorder_unfold. right.
      apply list_elem_of_In, in_flat_map. exists c.
      split; by apply list_elem_of_In.
  - revert node.
    induction link as [s d children b IH] using ChainLink_ind'.
    intros node. rewrite preorder_unfold. cbn [evolves_to].
    intros [-> | Hin]%elem_of_cons; [constructor |].
    apply list_elem_of_In, in_flat_map in Hin as (c & Hc & Hnode).
    apply reaches_child with c; [by apply list_elem_of_In |].
    rewrite Forall_forall in IH. apply IH; by apply list_elem_of_In.
Qed.

Lemma elem_of_stagesOf s links :
  s ∈ stagesOf links ↔ ∃ link, link ∈ links ∧ included link = true ∧ s = stageOf link.
Proof.
  unfold stagesOf. rewrite list_elem_of_fmap. split.
  - intros (link & -> & Hin). exists link.
    apply list_elem_of_In, List.filter_In in Hin as [Hin Hinc].
    by rewrite list_elem_of_In.
  - intros (link & Hin & Hinc & ->). exists link. split; [done |].
    apply list_elem_of_In, List.filter_In. by rewrite <- list_elem_of_In.
Qed.

Lemma included_bound link :
  included link = true
  ↔ ∃ n, evoId link = JS.Int n ∧ n ≤ LETS_GO_MAX_POKEMON.
Proof.
  unfold included, JS.leb. destruct (evoId link) as [|z].
  - split; [done | by intros (? & ? & _)].
  - rewrite Z.leb_le. split; [by exists z |].
    by intros (n & [= ->] & ?).
Qed.

Lemma flatten_unfold chain :
  flattenEvolutionChain chain
  = (if included chain then [stageOf chain] else [])
    ++ concat (flattenEvolutionChain <$> evolves_to chain).
Proof.
  by rewrite flatten_stagesOf, preorder_unfold, stagesOf_cons,
    stagesOf_flat_map.
Qed.

(** C1. The flattened sequence is the pre-order listing of the tree: the
    root's stage (when it passes the id test) comes first, followed by the
    complete flattening of the first child, then of the second child, and so
    on; equivalently it is the manual pre-order listing of the nodes with the
    nodes failing the test left out. *)
Theorem flatten_preorder chain :
  flattenEvolutionChain chain
  = (if included chain then [stageOf chain] else [])
    ++ concat (flattenEvolutionChain <$> evolves_to chain)
  ∧ flattenEvolutionChain chain
    = stageOf <$> List.filter included (preorder chain).
Proof.
  split; [apply flatten_unfold | apply flatten_stagesOf].
Qed.

(** C2. No emitted stage has a numeric id (parsed from the trailing
    non-empty segment of its URL) above the bound, and every node of the
    tree within the bound is emitted, whether or not its ancestors were. *)
Theorem flatten_filtering chain :
  (∀ s, s ∈ flattenEvolutionChain chain →
     ∃ n, urlId (fe_url s) = JS.Int n ∧ n ≤ LETS_GO_MAX_POKEMON)
  ∧ (∀ node, reaches chain node → included node = true →
       stageOf node ∈ flattenEvolutionChain chain).
Proof.
  rewrite flatten_stagesOf. split.
  - intros s (link & _ & Hinc & ->)%elem_of_stagesOf.
    by apply included_bound in Hinc.
  - intros node Hnode%reaches_preorder Hinc.
    apply elem_of_stagesOf. by exists node.
Qed.

Lemma flatten_filtering_witness :
  included pichuChain = false
  ∧ stageOf raichuLink ∈ flattenEvolutionChain pichuChain
  ∧ ∃ n, urlId (fe_url (stageOf raichuLink)) = JS.Int n
         ∧ n ≤ LETS_GO_MAX_POKEMON.
Proof.
  assert (Hin : stageOf raichuLink ∈ flattenEvolutionChain pichuChain).
  { apply (proj2 (flatten_filtering pichuChain)); [| reflexivity].
    apply reaches_child with pikachuLink; [left |].
    apply reaches_child with raichuLink; [left | constructor]. }
  split; [reflexivity |]. split; [exact Hin |].
  exact (proj1 (flatten_filtering pichuChain) _ Hin).
Defined.

(** C3. The details of the emitted stages are, position by position, the
    [evolution_details] of the emitted nodes themselves; each stage is the
    stage of a node of the tree and carries that node's own details; and
    when the root is emitted and has no details, the first stage is the
    root's, with an empty details sequence. *)
Theorem flatten_details chain :
  details <$> flattenEvolutionChain chain
  = evolution_details <$> List.filter included (preorder chain)
  ∧ (∀ s, s ∈ flattenEvolutionChain chain →
       ∃ node, reaches chain node ∧ s = stageOf node
               ∧ details s = evolution_details node)
  ∧ (included chain = true → evolution_details chain = [] →
       ∃ rest, flattenEvolutionChain chain = stageOf chain :: rest
               ∧ details (stageOf chain) = []).
Proof.
  rewrite flatten_stagesOf. repeat split.
  - unfold stagesOf. rewrite <- list_fmap_compose. by apply list_fmap_ext.
  - intros s (link & Hin & _ & ->)%elem_of_stagesOf.
    exists link. by rewrite reaches_preorder.
  - intros Hinc Hnil. rewrite preorder_unfold, stagesOf_cons, Hinc.
    by eexists.
Qed.

Lemma flatten_details_witness :
  ∃ rest, flattenEvolutionChain bulbasaurChain = stageOf bulbasaurChain :: rest
          ∧ details (stageOf bulbasaurChain) = [].
Proof.
  apply (proj2 (proj2 (flatten_details bulbasaurChain))); reflexivity.
Defined.

(** C4, as the code has it.  A species URL without any non-empty segment
    gives the id 0, and the node is emitted; a trailing segment that
    [parseInt] cannot read gives NaN, the test [evoId <= 151] fails and the
    node is left out.  In both cases nothing fails and the children are
    traversed. *)
Theorem flatten_missing_or_unparseable link :
  (trailingSegment (url (species link)) = None →
     evoId link = JS.Int 0
     ∧ flattenEvolutionChain link
       = stageOf link :: concat (flattenEvolutionChain <$> evolves_to link))
  ∧ (∀ seg, trailingSegment (url (species link)) = Some seg →
       JS.parseInt seg = JS.NaN →
       evoId link = JS.NaN
       ∧ flattenEvolutionChain link
         = concat (flattenEvolutionChain <$> evolves_to link)).
Proof.
  split.
  - intros Hnone.
    assert (Hid : evoId link = JS.Int 0)
      by (unfold evoId, urlId; by rewrite Hnone).
    split; [done |].
    rewrite flatten_unfold.
    unfold included. by rewrite Hid.
  - intros seg Hseg Hnan.
    assert (Hid : evoId link = JS.NaN)
      by (unfold evoId, urlId; by rewrite Hseg).
    split; [done |].
    rewrite flatten_unfold.
    unfold included. by rewrite Hid.
Qed.

Lemma flatten_missing_or_unparseable_witness :
  (evoId emptyUrlLink = JS.Int 0
   ∧ flattenEvolutionChain emptyUrlLink
     = stageOf emptyUrlLink
       :: concat (flattenEvolutionChain <$> evolves_to emptyUrlLink))
  ∧ (evoId namedUrlLink = JS.NaN
     ∧ flattenEvolutionChain namedUrlLink
       = concat (flattenEvolutionChain <$> evolves_to namedUrlLink)).
Proof.
  split.
  - apply (proj1 (flatten_missing_or_unparseable emptyUrlLink)). reflexivity.
  - apply (proj2 (flatten_missing_or_unparseable namedUrlLink) "pikachu");
      reflexivity.
Defined.

(** C4 as stated fails: the trailing segment "pikachu" is unparseable, yet
    the id is NaN rather than 0 and the node is dropped. *)
Lemma unparseable_segment_dropped :
  trailingSegment (url (species namedUrlLink)) = Some "pikachu"
  ∧ JS.parseInt "pikachu" = JS.NaN
  ∧ evoId namedUrlLink ≠ JS.Int 0
  ∧ stageOf namedUrlLink ∉ flattenEvolutionChain namedUrlLink.
Proof.
  repeat split; [done |].
  change (flattenEvolutionChain namedUrlLink) with (@nil FlatEvolution).
  apply not_elem_of_nil.
Qed.

(** * Properties of the type-effectiveness calculation *)

(** ** A map is determined by its keys and its defaulted lookups *)

Lemma lookup_current (e : gmap string Qc) k :
  e !! k = if decide (k ∈ dom e) then Some (current e k) else None.
Proof.
  unfold current. case_decide as Hk.
  - apply elem_of_dom in Hk as [v ->]. done.
  - by apply not_elem_of_dom in Hk as ->.
Qed.

Lemma effectiveness_eq (e1 e2 : gmap string Qc) :
  (∀ k, k ∈ dom e1 ↔ k ∈ dom e2) →
  (∀ k, current e1 k = current e2 k) →
  e1 = e2.
Proof.
  intros Hdom Hcur. apply map_eq. intros k.
  rewrite !lookup_current, Hcur.
  destruct (decide (k ∈ dom e1)) as [H1 | H1];
    destruct (decide (k ∈ dom e2)) as [H2 | H2]; try done;
    apply Hdom in H1 || apply Hdom in H2; done.
Qed.

Lemma current_insert (e : gmap string Qc) k v k' :
  current (<[k := v]> e) k' = if decide (k = k') then v else current e k'.
Proof.
  unfold current. case_decide as Hk.
  - subst. by rewrite lookup_insert_eq.
  - by rewrite lookup_insert_ne.
Qed.

(** ** The three inner loops *)

Lemma occurrences_app k l1 l2 :
  occurrences k (l1 ++ l2) = (occurrences k l1 + occurrences k l2)%nat.
Proof. induction l1 as [|r l1 IH]; simpl; [done | rewrite IH; lia]. Qed.

Lemma occurrences_pos k l : k ∈ name <$> l ↔ (0 < occurrences k l)%nat.
Proof.
  induction l as [|r l IH]; simpl.
  - split; [by intros ?%elem_of_nil | lia].
  - rewrite elem_of_cons, IH. case_decide as Hk.
    + split; [lia | intros _; by left].
    + split; [intros [-> | ?]; [done | lia] | intros ?; right; lia].
Qed.

Lemma occurrences_NoDup k l : NoDup (name <$> l) → (occurrences k l ≤ 1)%nat.
Proof.
  induction l as [|r l IH]; simpl; [lia |].
  intros [Hnotin Hnd]%NoDup_cons. specialize (IH Hnd).
  case_decide as Hk; [| lia]. subst k.
  rewrite occurrences_pos in Hnotin. lia.
Qed.

Lemma multiplyBy_dom q l k : ∀ e : gmap string Qc,
  k ∈ dom (fold_left (multiplyBy q) l e) ↔ k ∈ dom e ∨ k ∈ name <$> l.
Proof.
  induction l as [|r l IH]; intros e; cbn [fold_left].
  - rewrite fmap_nil, elem_of_nil. tauto.
  - rewrite IH. unfold multiplyBy.
    rewrite dom_insert_L, elem_of_union, elem_of_singleton, fmap_cons,
      elem_of_cons.
    tauto.
Qed.

Lemma multiplyBy_current q l k : ∀ e : gmap string Qc,
  current (fold_left (multiplyBy q) l e) k
  = (current e k * q ^ occurrences k l)%Qc.
Proof.
  induction l as [|r l IH]; intros e; simpl.
  - ring.
  - rewrite IH. unfold multiplyBy. rewrite current_insert.
    case_decide as Hk; simpl; [subst k |]; ring.
Qed.

Lemma applyImmunity_dom l k : ∀ e : gmap string Qc,
  k ∈ dom (fold_left applyImmunity l e) ↔ k ∈ dom e ∨ k ∈ name <$> l.
Proof.
  induction l as [|r l IH]; intros e; cbn [fold_left].
  - rewrite fmap_nil, elem_of_nil. tauto.
  - rewrite IH. unfold applyImmunity.
    rewrite dom_insert_L, elem_of_union, elem_of_singleton, fmap_cons,
      elem_of_cons.
    tauto.
Qed.

Lemma applyImmunity_current l k : ∀ e : gmap string Qc,
  current (fold_left applyImmunity l e) k
  = if decide (k ∈ name <$> l) then 0%Qc else current e k.
Proof.
  induction l as [|r l IH]; intros e.
  - destruct (decide (k ∈ name <$> [])) as [Hin | _]; [| done].
    by apply elem_of_nil in Hin.
  - cbn [fold_left]. rewrite IH. unfold applyImmunity.
    rewrite current_insert, fmap_cons.
    destruct (decide (k ∈ name <$> l)) as [Hin | Hnotin];
      destruct (decide (k ∈ name r :: (name <$> l))) as [Hin' | Hnotin'];
      try done.
    + exfalso. apply Hnotin'. by right.
    + apply elem_of_cons in Hin' as [-> | ?]; [| done].
      by rewrite decide_True.
    + rewrite decide_False; [done |]. intros <-. apply Hnotin'. by left.
Qed.

(** ** One table, then the whole list *)

Lemma applyType_dom (e : gmap string Qc) typeData k :
  k ∈ dom (applyType e typeData) ↔ k ∈ dom e ∨ k ∈ typeNames typeData.
Proof.
  unfold applyType, applyDouble, applyHalf, typeNames.
  rewrite applyImmunity_dom, !multiplyBy_dom, !fmap_app, !elem_of_app.
  tauto.
Qed.

Lemma applyType_current (e : gmap string Qc) typeData k :
  current (applyType e typeData) k
  = (current e k * typeFactor typeData k)%Qc.
Proof.
  unfold applyType, applyDouble, applyHalf, typeFactor.
  rewrite applyImmunity_current, !multiplyBy_current.
  case_decide; ring.
Qed.

Lemma fold_applyType_dom l k : ∀ e : gmap string Qc,
  k ∈ dom (fold_left applyType l e) ↔ k ∈ dom e ∨ k ∈ l ≫= typeNames.
Proof.
  induction l as [|t l IH]; intros e; cbn [fold_left].
  - change ([] ≫= typeNames) with (@nil string). rewrite elem_of_nil. tauto.
  - rewrite IH, applyType_dom, bind_cons, elem_of_app. tauto.
Qed.

Lemma fold_applyType_current l k : ∀ e : gmap string Qc,
  current (fold_left applyType l e) k
  = (current e k * combinedFactor l k)%Qc.
Proof.
  induction l as [|t l IH]; intros e; simpl.
  - ring.
  - rewrite IH, applyType_current. ring.
Qed.

Lemma calculate_dom l k :
  k ∈ dom (calculateTypeEffectiveness l) ↔ k ∈ l ≫= typeNames.
Proof.
  unfold calculateTypeEffectiveness.
  rewrite fold_applyType_dom, dom_empty_L, elem_of_empty. tauto.
Qed.

Lemma calculate_current l k :
  current (calculateTypeEffectiveness l) k = combinedFactor l k.
Proof.
  unfold calculateTypeEffectiveness. rewrite fold_applyType_current.
  unfold current. rewrite lookup_empty. simpl. ring.
Qed.

Lemma calculate_lookup l k :
  calculateTypeEffectiveness l !! k
  = if decide (k ∈ l ≫= typeNames) then Some (combinedFactor l k) else None.
Proof.
  rewrite lookup_current, calculate_current.
  destruct (decide (k ∈ l ≫= typeNames)) as [Hin | Hnotin].
  - rewrite decide_True; [done | by apply calculate_dom].
  - rewrite decide_False; [done | by rewrite calculate_dom].
Qed.

Lemma combinedFactor_app l1 l2 k :
  combinedFactor (l1 ++ l2) k
  = (combinedFactor l1 k * combinedFactor l2 k)%Qc.
Proof. induction l1 as [|t l1 IH]; simpl; [| rewrite IH]; ring. Qed.

Lemma elem_of_typeNames typeData k :
  k ∈ typeNames typeData
  ↔ k ∈ name <$> double_damage_from (damage_relations typeData)
    ∨ k ∈ name <$> half_damage_from (damage_relations typeData)
    ∨ k ∈ name <$> no_damage_from (damage_relations typeData).
Proof. unfold typeNames. by rewrite !fmap_app, !elem_of_app. Qed.

Lemma occurrences_zero k l : k ∉ name <$> l → occurrences k l = 0%nat.
Proof. rewrite occurrences_pos. lia. Qed.

Lemma occurrences_filter k l :
  occurrences k l = length (filter (λ n, n = k) (name <$> l)).
Proof.
  induction l as [|r l IH]; [done |].
  rewrite fmap_cons, filter_cons. simpl. rewrite IH. by case_decide.
Qed.

(** Only the names count, in any order. *)
Lemma occurrences_names k l (names : list string) :
  name <$> l ≡ₚ names →
  occurrences k l = length (filter (λ n, n = k) names).
Proof. intros Hperm. by rewrite occurrences_filter, Hperm. Qed.

(** Arithmetic on the literals. *)
Lemma Qc_eq_by_value (p q : Qc) : Qeq_bool p q = true → p = q.
Proof. intros H. by apply Qc_is_canon, Qeq_bool_iff. Qed.

Ltac qc_literal := apply Qc_eq_by_value; vm_compute; reflexivity.

Lemma lookup_by_value (e : gmap string Qc) (k : string) (q : Qc) :
  match e !! k with
  | Some p => Qeq_bool (this p) (this q)
  | None => false
  end = true →
  e !! k = Some q.
Proof.
  destruct (e !! k) as [p|]; [| done].
  intros H. f_equal. by apply Qc_eq_by_value.
Qed.

(** The factor of a table with distinct entries mirrors the raw relation. *)
Lemma typeFactor_distinct typeData k :
  distinctEntries typeData →
  typeFactor typeData k = default 1%Qc (rawRelation typeData k).
Proof.
  unfold distinctEntries, typeNames, typeFactor, rawRelation.
  set (dr := damage_relations typeData).
  intros Hnd.
  pose proof (occurrences_NoDup k _ Hnd) as Hocc.
  rewrite !occurrences_app in Hocc.
  destruct (decide (k ∈ name <$> double_damage_from dr)) as [Hd | Hd];
    destruct (decide (k ∈ name <$> half_damage_from dr)) as [Hh | Hh];
    destruct (decide (k ∈ name <$> no_damage_from dr)) as [Hn | Hn];
    rewrite occurrences_pos in Hd, Hh, Hn;
    try (exfalso; lia); simpl; try done.
  - replace (occurrences k (double_damage_from dr)) with 1%nat by lia.
    replace (occurrences k (half_damage_from dr)) with 0%nat by lia.
    qc_literal.
  - replace (occurrences k (double_damage_from dr)) with 0%nat by lia.
    replace (occurrences k (half_damage_from dr)) with 1%nat by lia.
    qc_literal.
  - replace (occurrences k (double_damage_from dr)) with 0%nat by lia.
    replace (occurrences k (half_damage_from dr)) with 0%nat by lia.
    qc_literal.
Qed.

Lemma typeFactor_values typeData k :
  distinctEntries typeData →
  typeFactor typeData k ∈ singleTypeMultipliers.
Proof.
  intros Hnd. rewrite (typeFactor_distinct _ _ Hnd). unfold rawRelation.
  unfold singleTypeMultipliers.
  repeat case_decide; simpl; rewrite !elem_of_cons; auto 6.
Qed.

(** C5. Two tables combine to the same map in either order: the same keys
    with the same multipliers, hence the same multiplier for every attacking
    type under the implicit default 1. *)
Theorem effectiveness_commutative A B :
  calculateTypeEffectiveness [A; B] = calculateTypeEffectiveness [B; A]
  ∧ ∀ k, current (calculateTypeEffectiveness [A; B]) k
         = current (calculateTypeEffectiveness [B; A]) k.
Proof.
  assert (Hcur : ∀ k, current (calculateTypeEffectiveness [A; B]) k
                      = current (calculateTypeEffectiveness [B; A]) k).
  { intros k. rewrite !calculate_current. simpl. ring. }
  split; [| done].
  apply effectiveness_eq; [| done].
  intros k. rewrite !calculate_dom, !bind_cons, !elem_of_app.
  tauto.
Qed.

Lemma immunity_lookup_zero before typeData after k :
  k ∈ name <$> no_damage_from (damage_relations typeData) →
  calculateTypeEffectiveness (before ++ typeData :: after) !! k = Some 0%Qc.
Proof.
  intros Hk. rewrite calculate_lookup.
  rewrite decide_True.
  - f_equal. rewrite combinedFactor_app. simpl.
    unfold typeFactor at 1. rewrite decide_True by done. ring.
  - rewrite bind_app, bind_cons, !elem_of_app, elem_of_typeNames. auto.
Qed.

(** C6. Once a table lists a type name in [no_damage_from], the final
    multiplier of that name is 0 whatever the earlier and the later tables
    hold for it: in particular no [double_damage_from] or
    [half_damage_from] entry of a later table moves it away from 0.  The
    name is any string but "__proto__", the one name under which the
    assignment [effectiveness[name] = 0] stores no key. *)
Theorem zero_dominance before typeData after k :
  k ≠ "__proto__" →
  k ∈ name <$> no_damage_from (damage_relations typeData) →
  calculateTypeEffectiveness (before ++ typeData :: after) !! k = Some 0%Qc
  ∧ current (calculateTypeEffectiveness (before ++ typeData :: after)) k
    = 0%Qc.
Proof.
  intros _ Hk.
  pose proof (immunity_lookup_zero before typeData after k Hk) as Hzero.
  split; [done |]. unfold current. by rewrite Hzero.
Qed.

Lemma zero_dominance_witness :
  calculateTypeEffectiveness ([waterType] ++ groundType :: [waterType])
    !! "electric" = Some 0%Qc
  ∧ current
      (calculateTypeEffectiveness ([waterType] ++ groundType :: [waterType]))
      "electric" = 0%Qc.
Proof.
  apply (zero_dominance [waterType] groundType [waterType] "electric").
  - discriminate.
  - vm_compute. left.
Defined.

(** C7. With at most two tables whose entries are distinct, every
    multiplier of the map lies in {0, 0.25, 0.5, 1, 2, 4}; with exactly
    one such table every multiplier lies in {0, 0.5, 1, 2} and the map is
    the table's raw damage relation.  The tables list type names: none of
    their entries is a property name of [Object.prototype], for which the
    object [effectiveness] would not start from the default 1. *)
Theorem multiplier_sets typeDataList :
  (length typeDataList ≤ 2)%nat →
  Forall distinctEntries typeDataList →
  plainNames typeDataList →
  (∀ k v, calculateTypeEffectiveness typeDataList !! k = Some v →
     v ∈ dualTypeMultipliers)
  ∧ (∀ typeData, typeDataList = [typeData] →
       (∀ k v, calculateTypeEffectiveness typeDataList !! k = Some v →
          v ∈ singleTypeMultipliers)
       ∧ ∀ k, calculateTypeEffectiveness typeDataList !! k
              = rawRelation typeData k).
Proof.
  unfold dualTypeMultipliers, singleTypeMultipliers.
  intros Hlen Hdistinct _. split.
  - intros k v. rewrite calculate_lookup. case_decide; [| done].
    intros [= <-].
    destruct typeDataList as [|A [|B [|C l]]]; simpl in *; [| | | lia].
    + rewrite !elem_of_cons. auto 7.
    + apply Forall_cons in Hdistinct as [HA _].
      pose proof (typeFactor_values A k HA) as HfA.
      unfold singleTypeMultipliers in HfA.
      rewrite !elem_of_cons, elem_of_nil in HfA.
      destruct HfA as [-> | [-> | [-> | [-> | []]]]];
        rewrite !elem_of_cons;
        [ left | do 2 right; left | do 3 right; left | do 4 right; left ];
        qc_literal.
    + apply Forall_cons in Hdistinct as [HA [HB _]%Forall_cons].
      pose proof (typeFactor_values A k HA) as HfA.
      pose proof (typeFactor_values B k HB) as HfB.
      unfold singleTypeMultipliers in HfA, HfB.
      rewrite !elem_of_cons, elem_of_nil in HfA, HfB.
      destruct HfA as [-> | [-> | [-> | [-> | []]]]];
        destruct HfB as [-> | [-> | [-> | [-> | []]]]];
        rewrite !elem_of_cons;
        first [ left; qc_literal
              | right; left; qc_literal
              | do 2 right; left; qc_literal
              | do 3 right; left; qc_literal
              | do 4 right; left; qc_literal
              | do 5 right; left; qc_literal ].
  - intros typeData ->. apply Forall_cons in Hdistinct as [HT _].
    assert (Hraw : ∀ k, calculateTypeEffectiveness [typeData] !! k
                        = rawRelation typeData k).
    { intros k. rewrite calculate_lookup. simpl. rewrite app_nil_r.
      rewrite (typeFactor_distinct _ _ HT).
      unfold rawRelation.
      destruct (decide (k ∈ typeNames typeData)) as [Hin | Hin];
        rewrite elem_of_typeNames in Hin;
        repeat case_decide; simpl; try (f_equal; qc_literal); tauto. }
    split; [| done].
    intros k v. rewrite Hraw. unfold rawRelation.
    repeat case_decide; intros [= <-]; rewrite !elem_of_cons; auto 6.
Qed.

Lemma distinct_water_ground : Forall distinctEntries [waterType; groundType].
Proof.
  apply List.Forall_cons; [| apply List.Forall_cons; [| apply List.Forall_nil]];
    unfold distinctEntries; apply (bool_decide_unpack _); vm_compute; exact I.
Qed.

Lemma plain_water_ground : plainNames [waterType; groundType].
Proof. apply (bool_decide_unpack _). vm_compute. exact I. Qed.

Lemma plain_water : plainNames [waterType].
Proof. apply (bool_decide_unpack _). vm_compute. exact I. Qed.

Lemma multiplier_sets_witness :
  Qc_of_Z 4 ∈ dualTypeMultipliers
  ∧ half ∈ singleTypeMultipliers
  ∧ calculateTypeEffectiveness [waterType] !! "fire"
    = rawRelation waterType "fire".
Proof.
  pose proof distinct_water_ground as Hboth.
  assert (Hwater : Forall distinctEntries [waterType])
    by (apply Forall_cons in Hboth as [? _]; by constructor).
  split; [| split].
  - apply (proj1 (multiplier_sets [waterType; groundType]
                    ltac:(simpl; lia) Hboth plain_water_ground) "grass").
    apply lookup_by_value. vm_compute. reflexivity.
  - apply (proj1 (proj2 (multiplier_sets [waterType] ltac:(simpl; lia) Hwater
                           plain_water)
                    waterType eq_refl) "fire").
    apply lookup_by_value. vm_compute. reflexivity.
  - apply (proj2 (proj2 (multiplier_sets [waterType] ltac:(simpl; lia) Hwater
                           plain_water)
                    waterType eq_refl)).
Defined.

(** C8. For a water table whose [double_damage_from] is {electric, grass}
    and a ground table whose [double_damage_from] is {water, grass, ice} and
    whose [no_damage_from] contains electric (grass being in no half- or
    no-damage list of either, as in the game data), the combination
    [water, ground] maps "grass" to 4 and "electric" to 0. *)
Theorem water_ground_scenario water ground :
  name <$> double_damage_from (damage_relations water)
    ≡ₚ ["electric"; "grass"] →
  name <$> double_damage_from (damage_relations ground)
    ≡ₚ ["water"; "grass"; "ice"] →
  "electric" ∈ name <$> no_damage_from (damage_relations ground) →
  "grass" ∉ name <$> (half_damage_from (damage_relations water)
                      ++ no_damage_from (damage_relations water)
                      ++ half_damage_from (damage_relations ground)
                      ++ no_damage_from (damage_relations ground)) →
  calculateTypeEffectiveness [water; ground] !! "grass" = Some (Qc_of_Z 4)
  ∧ calculateTypeEffectiveness [water; ground] !! "electric" = Some 0%Qc.
Proof.
  intros Hwater Hground Helectric Hgrass. split.
  - rewrite !fmap_app, !elem_of_app in Hgrass.
    assert (Hwh : "grass" ∉ name <$> half_damage_from (damage_relations water))
      by (intros ?; apply Hgrass; auto).
    assert (Hwn : "grass" ∉ name <$> no_damage_from (damage_relations water))
      by (intros ?; apply Hgrass; auto).
    assert (Hgh : "grass" ∉ name <$> half_damage_from (damage_relations ground))
      by (intros ?; apply Hgrass; auto).
    assert (Hgn : "grass" ∉ name <$> no_damage_from (damage_relations ground))
      by (intros ?; apply Hgrass; auto).
    rewrite calculate_lookup, decide_True.
    + f_equal. simpl. unfold typeFactor.
      do 2 (case_decide; [done |]).
      rewrite (occurrences_names "grass" _ _ Hwater).
      rewrite (occurrences_names "grass" _ _ Hground).
      rewrite (occurrences_zero "grass" (half_damage_from _) Hwh).
      rewrite (occurrences_zero "grass" (half_damage_from _) Hgh).
      qc_literal.
    + simpl. rewrite elem_of_app, elem_of_typeNames, Hwater. left. left.
      right. left.
  - apply (immunity_lookup_zero [water] ground [] "electric" Helectric).
Qed.

Lemma water_ground_scenario_witness :
  calculateTypeEffectiveness [waterType; groundType] !! "grass"
    = Some (Qc_of_Z 4)
  ∧ calculateTypeEffectiveness [waterType; groundType] !! "electric"
    = Some 0%Qc.
Proof.
  apply (water_ground_scenario waterType groundType).
  - apply Permutation_swap.
  - reflexivity.
  - vm_compute. left.
  - apply (bool_decide_unpack _). vm_compute. exact I.
Defined.

(** C10. The keys of the result are exactly the type names listed in some
    input table's [double_damage_from], [half_damage_from] or
    [no_damage_from]; with no table the result is the empty map, so every
    attacking type keeps the default multiplier 1. *)
Theorem effectiveness_keys :
  (∀ typeDataList k,
     is_Some (calculateTypeEffectiveness typeDataList !! k)
     ↔ ∃ typeData, typeData ∈ typeDataList
         ∧ (k ∈ name <$> double_damage_from (damage_relations typeData)
            ∨ k ∈ name <$> half_damage_from (damage_relations typeData)
            ∨ k ∈ name <$> no_damage_from (damage_relations typeData)))
  ∧ calculateTypeEffectiveness [] = ∅
  ∧ ∀ k, current (calculateTypeEffectiveness []) k = 1%Qc.
Proof.
  split; [| split; [done |]].
  - intros l k. rewrite <- elem_of_dom, calculate_dom, list_elem_of_bind.
    split; intros (t & H1 & H2); exists t.
    + by rewrite <- elem_of_typeNames.
    + by rewrite elem_of_typeNames.
  - intros k. by rewrite calculate_current.
Qed.

(** C9, on the code.  Whatever the other fields of the first entry and the
    rest of the list are, the labels "Lv. 16", "Trade" and the empty label
    are as documented, while an item name is capitalised in its first letter
    only: the labels for "thunder-stone" and "metal-coat" are
    "Thunder stone" and "Trade holding Metal coat". *)
Theorem formatEvolutionDetails_labels d rest it :
  (name (trigger d) = "level-up" → min_level d = Some 16 →
     formatEvolutionDetails (d :: rest) = "Lv. 16")
  ∧ (name (trigger d) = "use-item" → item d = Some it →
       name it = "thunder-stone" →
       formatEvolutionDetails (d :: rest) = "Thunder stone")
  ∧ (name (trigger d) = "trade" → held_item d = None →
       formatEvolutionDetails (d :: rest) = "Trade")
  ∧ (name (trigger d) = "trade" → held_item d = Some it →
       name it = "metal-coat" →
       formatEvolutionDetails (d :: rest) = "Trade holding Metal coat")
  ∧ formatEvolutionDetails [] = EmptyString.
Proof.
  unfold formatEvolutionDetails. repeat split.
  - by intros -> ->.
  - by intros -> -> ->.
  - by intros -> ->.
  - by intros -> -> ->.
Qed.

Lemma formatEvolutionDetails_labels_witness :
  formatEvolutionDetails [withMinLevel 16 (detail "level-up")] = "Lv. 16"
  ∧ formatEvolutionDetails [withItem "thunder-stone" (detail "use-item")]
    = "Thunder stone"
  ∧ formatEvolutionDetails [detail "trade"] = "Trade"
  ∧ formatEvolutionDetails [withHeldItem "metal-coat" (detail "trade")]
    = "Trade holding Metal coat".
Proof.
  split; [| split; [| split]].
  - apply (formatEvolutionDetails_labels
             (withMinLevel 16 (detail "level-up")) [] (itemResource "none"));
      reflexivity.
  - apply (formatEvolutionDetails_labels
             (withItem "thunder-stone" (detail "use-item")) []
             (itemResource "thunder-stone")); reflexivity.
  - apply (formatEvolutionDetails_labels
             (detail "trade") [] (itemResource "none")); reflexivity.
  - apply (formatEvolutionDetails_labels
             (withHeldItem "metal-coat" (detail "trade")) []
             (itemResource "metal-coat")); reflexivity.
Defined.

(** * Further properties of the type-effectiveness calculation *)

Lemma Qcpower_add (q : Qc) a b : (q ^ (a + b) = q ^ a * q ^ b)%Qc.
Proof. induction a as [|a IH]; simpl; [| rewrite IH]; ring. Qed.

Lemma two_neq_0 : Qc_of_Z 2 ≠ 0%Qc.
Proof. intros H. apply (f_equal this) in H. vm_compute in H. discriminate. Qed.

Lemma half_neq_0 : half ≠ 0%Qc.
Proof. intros H. apply (f_equal this) in H. vm_compute in H. discriminate. Qed.

Lemma Qcpower_neq_0 (q : Qc) n : q ≠ 0%Qc → (q ^ n)%Qc ≠ 0%Qc.
Proof.
  intros Hq. induction n as [|n IH]; simpl.
  - intros H. apply (f_equal this) in H. vm_compute in H. discriminate.
  - intros [H | H]%Qcmult_integral; done.
Qed.

Lemma typeFactor_zero typeData k :
  typeFactor typeData k = 0%Qc
  ↔ k ∈ name <$> no_damage_from (damage_relations typeData).
Proof.
  unfold typeFactor. case_decide as Hk; [done |].
  split; [| done].
  intros [H | H]%Qcmult_integral; exfalso; revert H;
    apply Qcpower_neq_0; [apply two_neq_0 | apply half_neq_0].
Qed.

Lemma combinedFactor_zero l k :
  combinedFactor l k = 0%Qc
  ↔ ∃ typeData, typeData ∈ l
      ∧ k ∈ name <$> no_damage_from (damage_relations typeData).
Proof.
  induction l as [|t l IH]; simpl.
  - split.
    + intros H. apply (f_equal this) in H. vm_compute in H. discriminate.
    + intros (? & []%elem_of_nil & _).
  - split.
    + intros [H | H]%Qcmult_integral.
      * exists t. split; [left | by apply typeFactor_zero].
      * apply IH in H as (t' & Hin & Hk). exists t'. split; [by right | done].
    + intros (t' & [-> | Hin]%elem_of_cons & Hk).
      * apply typeFactor_zero in Hk. rewrite Hk. ring.
      * rewrite (proj2 IH); [ring | by exists t'].
Qed.

Lemma combinedFactor_Permutation l1 l2 k :
  l1 ≡ₚ l2 → combinedFactor l1 k = combinedFactor l2 k.
Proof.
  induction 1 as [| t l1 l2 _ IH | t1 t2 l | l1 l2 l3 _ IH1 _ IH2]; simpl.
  - done.
  - by rewrite IH.
  - ring.
  - by rewrite IH1.
Qed.

Lemma plain_water_ground_water :
  plainNames [waterType; groundType; waterType].
Proof. apply (bool_decide_unpack _). vm_compute. exact I. Qed.

(** X1. The result does not depend on the order of the tables, for any
    number of tables that list type names (no property name of
    [Object.prototype]) and hold at most 1023 factors 2 and 0.5 in all, the
    range in which every product is exact. *)
Theorem effectiveness_permutation l1 l2 :
  l1 ≡ₚ l2 →
  plainNames l1 →
  (factorCount l1 ≤ MAX_EXACT_FACTORS)%nat →
  calculateTypeEffectiveness l1 = calculateTypeEffectiveness l2.
Proof.
  intros Hperm _ _. apply effectiveness_eq; intros k.
  - rewrite !calculate_dom, !list_elem_of_bind.
    split; intros (t & Hk & Hin); exists t; split; try done.
    + by rewrite <- Hperm.
    + by rewrite Hperm.
  - rewrite !calculate_current. by apply combinedFactor_Permutation.
Qed.

Lemma effectiveness_permutation_witness :
  calculateTypeEffectiveness [waterType; groundType; waterType]
  = calculateTypeEffectiveness [groundType; waterType; waterType].
Proof.
  apply (effectiveness_permutation [waterType; groundType; waterType]
           [groundType; waterType; waterType]).
  - apply Permutation_swap.
  - exact plain_water_ground_water.
  - apply Nat.leb_le. vm_compute. reflexivity.
Defined.

(** X2. For tables that list type names and hold at most 1023 factors 2
    and 0.5 in all, a multiplier is 0 exactly when some table lists the
    attacking type in [no_damage_from]: the factors 2 and 0.5 do not
    produce 0. *)
Theorem effectiveness_zero_iff l k :
  plainNames l →
  (factorCount l ≤ MAX_EXACT_FACTORS)%nat →
  calculateTypeEffectiveness l !! k = Some 0%Qc
  ↔ ∃ typeData, typeData ∈ l
      ∧ k ∈ name <$> no_damage_from (damage_relations typeData).
Proof.
  intros _ _. rewrite calculate_lookup. split.
  - case_decide; [| done]. intros [= Hzero]. by apply combinedFactor_zero.
  - intros (t & Hin & Hk). rewrite decide_True.
    + f_equal. apply combinedFactor_zero. by exists t.
    + apply list_elem_of_bind. exists t. split; [| done].
      apply elem_of_typeNames. auto.
Qed.

Lemma effectiveness_zero_iff_witness :
  calculateTypeEffectiveness [waterType; groundType] !! "electric"
    = Some 0%Qc
  ∧ calculateTypeEffectiveness [waterType; groundType] !! "grass"
    ≠ Some 0%Qc.
Proof.
  assert (Hbound : (factorCount [waterType; groundType]
                    ≤ MAX_EXACT_FACTORS)%nat)
    by (apply Nat.leb_le; vm_compute; reflexivity).
  pose proof (λ k, effectiveness_zero_iff [waterType; groundType] k
                     plain_water_ground Hbound) as Hiff.
  split.
  - apply (proj2 (Hiff "electric")).
    exists groundType. split; [right; left | vm_compute; left].
  - intros Hzero.
    apply (proj1 (Hiff "grass")) in Hzero as (typeData & Hin & Hgrass).
    revert typeData Hin Hgrass.
    apply (proj1 (Forall_forall
                    (λ t, "grass" ∉ name <$> no_damage_from (damage_relations t))
                    [waterType; groundType])).
    apply (bool_decide_unpack _). vm_compute. exact I.
Defined.

Lemma occurrences_le_length k l : (occurrences k l ≤ length l)%nat.
Proof.
  induction l as [|r l IH]; simpl; [done |]. case_decide; lia.
Qed.

Lemma factorCount_cons typeData l :
  factorCount (typeData :: l)
  = (length (double_damage_from (damage_relations typeData))
     + length (half_damage_from (damage_relations typeData))
     + factorCount l)%nat.
Proof. reflexivity. Qed.

Lemma combinedFactor_power l k :
  combinedFactor l k = 0%Qc
  ∨ ∃ a b : nat, combinedFactor l k = (Qc_of_Z 2 ^ a * half ^ b)%Qc
                 ∧ (a + b ≤ factorCount l)%nat.
Proof.
  induction l as [|t l IH].
  - right. exists 0%nat, 0%nat. split; [simpl; ring | done].
  - cbn [combinedFactor].
    destruct IH as [-> | (a & b & -> & Hab)]; [left; ring |].
    unfold typeFactor. case_decide; [left; ring |].
    right.
    exists (occurrences k (double_damage_from (damage_relations t)) + a)%nat,
           (occurrences k (half_damage_from (damage_relations t)) + b)%nat.
    split; [rewrite !Qcpower_add; ring |].
    pose proof (occurrences_le_length k
                  (double_damage_from (damage_relations t))).
    pose proof (occurrences_le_length k
                  (half_damage_from (damage_relations t))).
    rewrite factorCount_cons. lia.
Qed.

(** X3. For any number of tables that list type names and hold at most
    1023 factors 2 and 0.5 in all, every multiplier is 0 or a product of
    factors 2 and 0.5, of no more factors than the tables hold. *)
Theorem effectiveness_power_of_two l k v :
  plainNames l →
  (factorCount l ≤ MAX_EXACT_FACTORS)%nat →
  calculateTypeEffectiveness l !! k = Some v →
  v = 0%Qc
  ∨ ∃ a b : nat, v = (Qc_of_Z 2 ^ a * half ^ b)%Qc
                 ∧ (a + b ≤ factorCount l)%nat.
Proof.
  intros _ _. rewrite calculate_lookup. case_decide; [| done].
  intros [= <-]. apply combinedFactor_power.
Qed.

Lemma effectiveness_power_of_two_witness :
  Qc_of_Z 4 = 0%Qc
  ∨ ∃ a b : nat, Qc_of_Z 4 = (Qc_of_Z 2 ^ a * half ^ b)%Qc
                 ∧ (a + b ≤ factorCount [waterType; groundType])%nat.
Proof.
  apply (effectiveness_power_of_two [waterType; groundType] "grass").
  - exact plain_water_ground.
  - apply Nat.leb_le. vm_compute. reflexivity.
  - apply lookup_by_value. vm_compute. reflexivity.
Defined.

(** X4. Combining is multiplicative: for tables that list type names and
    hold at most 1023 factors 2 and 0.5 in all, the defaulted multiplier for
    the concatenation of two lists of tables is the product of the defaulted
    multipliers of the two lists, and its keys are the keys of either. *)
Theorem effectiveness_app l1 l2 k :
  plainNames (l1 ++ l2) →
  (factorCount (l1 ++ l2) ≤ MAX_EXACT_FACTORS)%nat →
  current (calculateTypeEffectiveness (l1 ++ l2)) k
  = (current (calculateTypeEffectiveness l1) k
     * current (calculateTypeEffectiveness l2) k)%Qc
  ∧ (is_Some (calculateTypeEffectiveness (l1 ++ l2) !! k)
     ↔ is_Some (calculateTypeEffectiveness l1 !! k)
       ∨ is_Some (calculateTypeEffectiveness l2 !! k)).
Proof.
  intros _ _. split.
  - rewrite !calculate_current. apply combinedFactor_app.
  - rewrite <- !elem_of_dom, !calculate_dom, bind_app, elem_of_app. tauto.
Qed.

Lemma effectiveness_app_witness :
  current (calculateTypeEffectiveness ([waterType] ++ [groundType])) "grass"
  = (current (calculateTypeEffectiveness [waterType]) "grass"
     * current (calculateTypeEffectiveness [groundType]) "grass")%Qc
  ∧ (is_Some (calculateTypeEffectiveness ([waterType] ++ [groundType])
              !! "grass")
     ↔ is_Some (calculateTypeEffectiveness [waterType] !! "grass")
       ∨ is_Some (calculateTypeEffectiveness [groundType] !! "grass")).
Proof.
  apply (effectiveness_app [waterType] [groundType] "grass").
  - exact plain_water_ground.
  - apply Nat.leb_le. vm_compute. reflexivity.
Defined.

(** * Numeric ids in URLs and labels *)

(** ** Strings *)

Lemma append_cons c s1 s2 : String c s1 +:+ s2 = String c (s1 +:+ s2).
Proof. reflexivity. Qed.

Lemma append_nil_r s : s +:+ EmptyString = s.
Proof.
  induction s as [|c s IH]; [done |]. by rewrite append_cons, IH.
Qed.

Lemma append_assoc s1 s2 s3 : (s1 +:+ s2) +:+ s3 = s1 +:+ s2 +:+ s3.
Proof.
  induction s1 as [|c s1 IH]; [done |]. by rewrite !append_cons, IH.
Qed.

Lemma length_append s1 s2 :
  String.length (s1 +:+ s2) = (String.length s1 + String.length s2)%nat.
Proof.
  induction s1 as [|c s1 IH]; [done |].
  rewrite append_cons. simpl. by rewrite IH.
Qed.

(** ** [split] *)

Lemma split_not_nil sep s : JS.split sep s ≠ [].
Proof.
  destruct s as [|c s]; simpl; [done |].
  destruct (Ascii.eqb c sep); [done |]. by destruct (JS.split sep s).
Qed.

Lemma split_append_sep sep a b :
  JS.split sep (a +:+ String sep b) = JS.split sep a ++ JS.split sep b.
Proof.
  induction a as [|c a IH].
  - change (EmptyString +:+ String sep b) with (String sep b).
    simpl. by rewrite Ascii.eqb_refl.
  - rewrite append_cons. simpl.
    destruct (Ascii.eqb c sep); [by rewrite IH |].
    rewrite IH. pose proof (split_not_nil sep a) as Hne.
    by destruct (JS.split sep a).
Qed.

Lemma split_no_sep sep s : hasChar sep s = false → JS.split sep s = [s].
Proof.
  induction s as [|c s IH]; simpl; [done |].
  intros [Hc Hs]%orb_false_iff. by rewrite Hc, (IH Hs).
Qed.

Lemma trailingSegment_last base seg :
  hasChar "/" seg = false → seg ≠ EmptyString →
  trailingSegment (base +:+ String "/" seg) = Some seg
  ∧ trailingSegment (base +:+ String "/" (seg +:+ "/")) = Some seg.
Proof.
  intros Hseg Hne.
  assert (Htruthy : JS.truthy seg = true) by by destruct seg.
  unfold trailingSegment, JS.pop, JS.filterBoolean. split.
  - rewrite split_append_sep, (split_no_sep _ _ Hseg), List.filter_app.
    simpl. rewrite Htruthy. apply last_snoc.
  - rewrite split_append_sep, (split_append_sep _ seg EmptyString),
      (split_no_sep _ _ Hseg), !List.filter_app.
    simpl. rewrite Htruthy. apply last_snoc.
Qed.

(** ** [parseInt] on decimal digit strings *)

Lemma radixDigit_decimal c :
  isDecimal c = true → JS.radixDigit 10 c = Some (JS.code c - 48).
Proof.
  unfold isDecimal, JS.radixDigit, JS.digitValue. intros H.
  rewrite H. apply andb_true_iff in H as [?%Z.leb_le ?%Z.leb_le].
  destruct (JS.code c - 48 <? 10) eqn:Hlt; [done |].
  apply Z.ltb_ge in Hlt. lia.
Qed.

Lemma parseDigits_decimal s : ∀ acc,
  allDecimal s = true → s ≠ EmptyString →
  JS.parseDigits 10 acc s = Some (decimalValue (default 0 acc) s).
Proof.
  induction s as [|c s IH]; intros acc Hall Hne; [done |].
  simpl in Hall. apply andb_true_iff in Hall as [Hc Hs].
  simpl. rewrite (radixDigit_decimal _ Hc).
  destruct s as [|c' s']; [done |].
  by rewrite IH.
Qed.

Lemma skipWhiteSpace_decimal c r :
  isDecimal c = true → JS.skipWhiteSpace (String c r) = String c r.
Proof.
  intros Hc. unfold isDecimal in Hc.
  apply andb_true_iff in Hc as [H1%Z.leb_le H2%Z.leb_le].
  assert (Hws1 : JS.ws1 (JS.code c) = false) by (unfold JS.ws1; lia).
  assert (Hws2 : ∀ b, JS.ws2 (JS.code c) b = false)
    by (intros b; unfold JS.ws2; lia).
  assert (Hws3 : ∀ b d, JS.ws3 (JS.code c) b d = false)
    by (intros b d; unfold JS.ws3; lia).
  simpl. rewrite Hws1.
  destruct r as [|c2 [|c3 r3]]; [done | by rewrite Hws2 |].
  by rewrite Hws2, Hws3.
Qed.

Lemma isDecimal_cases c :
  isDecimal c = true →
  c ∈ ["0"; "1"; "2"; "3"; "4"; "5"; "6"; "7"; "8"; "9"]%char.
Proof.
  intros H.
  destruct c as [[] [] [] [] [] [] [] []];
    first [ vm_compute in H; discriminate H
          | rewrite !elem_of_cons; auto 11 ].
Qed.

Lemma parseInt_decimal s :
  allDecimal s = true → s ≠ EmptyString →
  JS.parseInt s = JS.Int (decimalValue 0 s).
Proof.
  intros Hall Hne. destruct s as [|c r]; [done |].
  pose proof Hall as Hall'. simpl in Hall'.
  apply andb_true_iff in Hall' as [Hc Hr].
  unfold JS.parseInt. rewrite (skipWhiteSpace_decimal _ _ Hc).
  assert (Hdigits : JS.parseDigits 10 None (String c r)
                    = Some (decimalValue 0 (String c r)))
    by by apply parseDigits_decimal.
  assert (Hint : ∀ n, 1 * n = n) by (intros; lia).
  apply isDecimal_cases in Hc.
  rewrite !elem_of_cons, elem_of_nil in Hc.
  destruct Hc as [-> | [-> | [-> | [-> | [-> | [-> | [-> | [-> | [-> | [-> | []]]]]]]]]]];
    try (cbv iota beta; rewrite Hdigits, Hint; reflexivity).
  destruct r as [|c2 r2]; [reflexivity |].
  simpl in Hr. apply andb_true_iff in Hr as [Hc2 _].
  apply isDecimal_cases in Hc2.
  rewrite !elem_of_cons, elem_of_nil in Hc2.
  destruct Hc2 as [-> | [-> | [-> | [-> | [-> | [-> | [-> | [-> | [-> | [-> | []]]]]]]]]]];
    cbv iota beta; rewrite Hdigits, Hint; reflexivity.
Qed.

(** ** The decimal text of a number *)

Lemma allDecimal_append s1 s2 :
  allDecimal (s1 +:+ s2) = allDecimal s1 && allDecimal s2.
Proof.
  induction s1 as [|c s1 IH]; [done |].
  rewrite append_cons. simpl. by rewrite IH, andb_assoc.
Qed.

Lemma decimalValue_append s1 s2 acc :
  decimalValue acc (s1 +:+ s2) = decimalValue (decimalValue acc s1) s2.
Proof.
  revert acc. induction s1 as [|c s1 IH]; intros acc; [done |].
  rewrite append_cons. simpl. by rewrite IH.
Qed.

Lemma hasChar_append c s1 s2 :
  hasChar c (s1 +:+ s2) = hasChar c s1 || hasChar c s2.
Proof.
  induction s1 as [|c' s1 IH]; [done |].
  rewrite append_cons. simpl. by rewrite IH, orb_assoc.
Qed.

Lemma allDecimal_no_slash s : allDecimal s = true → hasChar "/" s = false.
Proof.
  induction s as [|c s IH]; [done |]. simpl.
  intros [Hc Hs]%andb_true_iff. rewrite (IH Hs), orb_false_r.
  apply isDecimal_cases in Hc. rewrite !elem_of_cons, elem_of_nil in Hc.
  by destruct Hc as [-> | [-> | [-> | [-> | [-> | [-> | [-> | [-> | [-> | [-> | []]]]]]]]]]].
Qed.

Lemma pretty_N_char_decimal d :
  (d < 10)%N →
  isDecimal (pretty_N_char d) = true
  ∧ JS.code (pretty_N_char d) - 48 = Z.of_N d.
Proof.
  intros Hd.
  assert (Hcases : d ∈ [0; 1; 2; 3; 4; 5; 6; 7; 8; 9]%N).
  { rewrite !elem_of_cons, elem_of_nil. lia. }
  rewrite !elem_of_cons, elem_of_nil in Hcases.
  by destruct Hcases as [-> | [-> | [-> | [-> | [-> | [-> | [-> | [-> | [-> | [-> | []]]]]]]]]]].
Qed.

Lemma pretty_N_go_decimal x : ∀ s,
  ∃ digits, pretty_N_go x s = digits +:+ s
            ∧ allDecimal digits = true
            ∧ decimalValue 0 digits = Z.of_N x
            ∧ ((0 < x)%N → digits ≠ EmptyString).
Proof.
  induction (N.lt_wf_0 x) as [x _ IH]. intros s.
  destruct (decide (x = 0)%N) as [-> | Hx].
  - exists EmptyString. rewrite pretty_N_go_0. split_and!; [done.. | lia].
  - rewrite pretty_N_go_step by lia.
    destruct (IH (x `div` 10)%N ltac:(apply N.div_lt; lia)
                (String (pretty_N_char (x `mod` 10)) s))
      as (digits & -> & Hall & Hval & _).
    destruct (pretty_N_char_decimal (x `mod` 10)%N) as [Hdec Hcode];
      [apply N.mod_lt; lia |].
    exists (digits +:+ String (pretty_N_char (x `mod` 10)) EmptyString).
    split_and!.
    + by rewrite append_assoc.
    + rewrite allDecimal_append, Hall. simpl. by rewrite Hdec.
    + rewrite decimalValue_append, Hval. simpl. rewrite Hcode.
      rewrite (N.div_mod x 10) at 3 by lia. lia.
    + intros _. by destruct digits.
Qed.

Lemma toString_decimal id :
  0 ≤ id →
  allDecimal (JS.toString id) = true
  ∧ JS.toString id ≠ EmptyString
  ∧ decimalValue 0 (JS.toString id) = id.
Proof.
  intros Hid. destruct id as [|p|p]; [done | | lia].
  unfold JS.toString, pretty, pretty_Z, pretty, pretty_positive, pretty,
    pretty_N.
  rewrite decide_False by lia.
  destruct (pretty_N_go_decimal (N.pos p) EmptyString)
    as (digits & -> & Hall & Hval & Hne).
  rewrite append_nil_r. split_and!; [done | | done].
  apply Hne. lia.
Qed.

Lemma urlId_of_api_url base id :
  0 ≤ id →
  urlId (base +:+ "/" +:+ JS.toString id +:+ "/") = JS.Int id.
Proof.
  intros Hid. destruct (toString_decimal id Hid) as (Hall & Hne & Hval).
  destruct (trailingSegment_last base (JS.toString id)
              (allDecimal_no_slash _ Hall) Hne) as [_ Hslash].
  unfold urlId.
  change (base +:+ "/" +:+ JS.toString id +:+ "/")
    with (base +:+ String "/" (JS.toString id +:+ "/")).
  rewrite Hslash. simpl. by rewrite parseInt_decimal, Hval.
Qed.

(** X5. The id read off a resource URL of PokeAPI's form, a path whose
    last segment is the decimal id with or without a closing slash, is that
    id, for every id from 0 to [Number.MAX_SAFE_INTEGER]. *)
Theorem urlId_resource_url base id :
  0 ≤ id ≤ MAX_SAFE_INTEGER →
  urlId (base +:+ "/" +:+ JS.toString id +:+ "/") = JS.Int id
  ∧ urlId (base +:+ "/" +:+ JS.toString id) = JS.Int id.
Proof.
  intros [Hid _]. destruct (toString_decimal id Hid) as (Hall & Hne & Hval).
  destruct (trailingSegment_last base (JS.toString id)
              (allDecimal_no_slash _ Hall) Hne) as [Hplain Hslash].
  unfold urlId. split.
  - change (base +:+ "/" +:+ JS.toString id +:+ "/")
      with (base +:+ String "/" (JS.toString id +:+ "/")).
    rewrite Hslash. simpl. by rewrite parseInt_decimal, Hval.
  - change (base +:+ "/" +:+ JS.toString id)
      with (base +:+ String "/" (JS.toString id)).
    rewrite Hplain. simpl. by rewrite parseInt_decimal, Hval.
Qed.

Lemma urlId_resource_url_witness :
  urlId ("https://pokeapi.co/api/v2/pokemon-species" +:+ "/"
         +:+ JS.toString 25 +:+ "/") = JS.Int 25
  ∧ urlId ("https://pokeapi.co/api/v2/pokemon-species" +:+ "/"
           +:+ JS.toString 25) = JS.Int 25.
Proof.
  apply (urlId_resource_url "https://pokeapi.co/api/v2/pokemon-species" 25).
  unfold MAX_SAFE_INTEGER. lia.
Defined.

(** X6. A link whose species URL has PokeAPI's form with the id [id] is
    kept by [flattenEvolutionChain] exactly when [id] is at most 151. *)
Theorem included_by_dex_number link base id :
  0 ≤ id →
  url (species link) = base +:+ "/" +:+ JS.toString id +:+ "/" →
  (id ≤ LETS_GO_MAX_POKEMON →
     ∃ rest, flattenEvolutionChain link = stageOf link :: rest)
  ∧ (LETS_GO_MAX_POKEMON < id →
       flattenEvolutionChain link
       = concat (flattenEvolutionChain <$> evolves_to link)).
Proof.
  intros Hid Hurl.
  assert (Hevo : evoId link = JS.Int id).
  { unfold evoId. rewrite Hurl. by apply urlId_of_api_url. }
  rewrite flatten_unfold. unfold included. rewrite Hevo. simpl. split.
  - intros Hle. rewrite (proj2 (Z.leb_le _ _) Hle). by eexists.
  - intros Hlt. by rewrite (proj2 (Z.leb_gt _ _) Hlt).
Qed.

Lemma included_by_dex_number_witness :
  (∃ rest, flattenEvolutionChain pikachuLink = stageOf pikachuLink :: rest)
  ∧ flattenEvolutionChain pichuChain
    = concat (flattenEvolutionChain <$> evolves_to pichuChain).
Proof.
  split.
  - apply (included_by_dex_number pikachuLink
             "https://pokeapi.co/api/v2/pokemon-species" 25);
      [lia | reflexivity | vm_compute; discriminate].
  - apply (included_by_dex_number pichuChain
             "https://pokeapi.co/api/v2/pokemon-species" 172);
      [lia | reflexivity | reflexivity].
Defined.

Lemma allDecimal_repeat_zero n : allDecimal (repeatChar n "0") = true.
Proof. induction n as [|n IH]; [done |]. simpl. by rewrite IH. Qed.

Lemma decimalValue_repeat_zero n : decimalValue 0 (repeatChar n "0") = 0.
Proof.
  induction n as [|n IH]; [done |].
  by change (decimalValue 0 (repeatChar (S n) "0"))
    with (decimalValue 0 (repeatChar n "0")).
Qed.

Lemma length_repeatChar n c : String.length (repeatChar n c) = n.
Proof. induction n as [|n IH]; [done |]. simpl. by rewrite IH. Qed.

(** X7. The label of an id from 0 to [Number.MAX_SAFE_INTEGER] is "#"
    followed by at least three decimal digits that read back, with
    [parseInt], as the id: padding adds zeros only and nothing is ever cut
    off. *)
Theorem formatPokemonId_round_trip id :
  0 ≤ id ≤ MAX_SAFE_INTEGER →
  ∃ digits, formatPokemonId id = String "#" digits
            ∧ allDecimal digits = true
            ∧ (3 ≤ String.length digits)%nat
            ∧ JS.parseInt digits = JS.Int id.
Proof.
  intros [Hid _]. destruct (toString_decimal id Hid) as (Hall & Hne & Hval).
  exists (padStart 3 "0" (JS.toString id)).
  assert (Hdec : allDecimal (padStart 3 "0" (JS.toString id)) = true).
  { unfold padStart. by rewrite allDecimal_append, allDecimal_repeat_zero. }
  split_and!; [done | done | |].
  - unfold padStart. rewrite length_append, length_repeatChar. lia.
  - rewrite parseInt_decimal; [| done |].
    + unfold padStart.
      by rewrite decimalValue_append, decimalValue_repeat_zero, Hval.
    + unfold padStart. intros Hempty.
      apply (f_equal String.length) in Hempty.
      rewrite length_append in Hempty. simpl in Hempty.
      destruct (JS.toString id); [done | simpl in Hempty; lia].
Qed.

Lemma formatPokemonId_round_trip_witness :
  ∃ digits, formatPokemonId 25 = String "#" digits
            ∧ allDecimal digits = true
            ∧ (3 ≤ String.length digits)%nat
            ∧ JS.parseInt digits = JS.Int 25.
Proof.
  apply (formatPokemonId_round_trip 25). unfold MAX_SAFE_INTEGER. lia.
Defined.

(** X8. For the ids 0 to 999, which cover the Pokedex, the label has
    exactly four characters. *)
Theorem formatPokemonId_width id :
  0 ≤ id ≤ 999 → String.length (formatPokemonId id) = 4%nat.
Proof.
  intros Hid.
  assert (Hall : Forall (λ i, String.length (formatPokemonId i) = 4%nat)
                   (seqZ 0 1000)).
  { apply (bool_decide_unpack _). vm_compute. exact I. }
  rewrite Forall_forall in Hall. apply Hall, elem_of_seqZ. lia.
Qed.

Lemma formatPokemonId_width_witness :
  String.length (formatPokemonId 151) = 4%nat.
Proof. apply (formatPokemonId_width 151). lia. Defined.

(** * Display names *)

Lemma join_cons_cons sep x y l :
  join sep (x :: y :: l) = x +:+ sep +:+ join sep (y :: l).
Proof. reflexivity. Qed.

Lemma formatName_from (start : bool) (s : string) :
  match JS.split "-" s with
  | [] => EmptyString
  | hd :: tl =>
      join " " ((if start then capitalize hd else hd) :: (capitalize <$> tl))
  end = capitalizeWords start s.
Proof.
  revert start. induction s as [|c r IH]; intros start.
  - simpl. by destruct start.
  - simpl. destruct (Ascii.eqb c "-") eqn:Hc.
    + specialize (IH true).
      pose proof (split_not_nil "-" r) as Hne.
      destruct (JS.split "-" r) as [|hd tl]; [done |].
      rewrite <- IH. by destruct start.
    + specialize (IH false).
      pose proof (split_not_nil "-" r) as Hne.
      destruct (JS.split "-" r) as [|hd tl]; [done |].
      rewrite <- IH.
      destruct tl as [|y tl]; destruct start; reflexivity.
Qed.

Lemma formatName_capitalizeWords s : formatName s = capitalizeWords true s.
Proof.
  unfold formatName. rewrite <- (formatName_from true s).
  pose proof (split_not_nil "-" s) as Hne.
  by destruct (JS.split "-" s).
Qed.

Lemma toUpperCase_not_hyphen c :
  Ascii.eqb c "-" = false → Ascii.eqb (JS.toUpperCase c) "-" = false.
Proof.
  destruct c as [[] [] [] [] [] [] [] []]; intros H; vm_compute in H |- *;
    done.
Qed.

Lemma toUpperCase_idemp c : JS.toUpperCase (JS.toUpperCase c) = JS.toUpperCase c.
Proof. by destruct c as [[] [] [] [] [] [] [] []]. Qed.

Lemma capitalizeWords_length start s :
  String.length (capitalizeWords start s) = String.length s.
Proof.
  revert start. induction s as [|c r IH]; intros start; [done |].
  simpl. destruct (Ascii.eqb c "-"); simpl; by rewrite IH.
Qed.

Lemma capitalizeWords_no_hyphen start s :
  hasChar "-" (capitalizeWords start s) = false.
Proof.
  revert start. induction s as [|c r IH]; intros start; [done |].
  simpl. destruct (Ascii.eqb c "-") eqn:Hc; simpl; rewrite IH.
  - done.
  - destruct start; [by rewrite toUpperCase_not_hyphen | by rewrite Hc].
Qed.

(** A string without hyphens in which the word starts are already in
    upper case is left alone. *)
Lemma capitalizeWords_fixed s : ∀ start start',
  (start' = true → start = true) →
  capitalizeWords start' (capitalizeWords start s) = capitalizeWords start s.
Proof.
  induction s as [|c r IH]; intros start start' Hstart; [done |].
  simpl. destruct (Ascii.eqb c "-") eqn:Hc.
  - simpl. rewrite IH by done. by destruct start'.
  - simpl. destruct start.
    + rewrite toUpperCase_not_hyphen by done.
      rewrite IH by done. destruct start'; by rewrite ?toUpperCase_idemp.
    + rewrite Hc, IH by done. destruct start'; [by discriminate Hstart |].
      done.
Qed.

(** X9. On an ASCII name, as PokeAPI's names are, [formatName] keeps the
    length of the name, leaves no hyphen in it and is idempotent; on a name
    without hyphens it is [capitalize]. *)
Theorem formatName_properties s :
  isAscii s = true →
  String.length (formatName s) = String.length s
  ∧ hasChar "-" (formatName s) = false
  ∧ formatName (formatName s) = formatName s
  ∧ (hasChar "-" s = false → formatName s = capitalize s).
Proof.
  intros _. split_and!.
  - rewrite formatName_capitalizeWords. apply capitalizeWords_length.
  - rewrite formatName_capitalizeWords. apply capitalizeWords_no_hyphen.
  - rewrite !formatName_capitalizeWords. by apply capitalizeWords_fixed.
  - intros Hs. unfold formatName. by rewrite (split_no_sep _ _ Hs).
Qed.

Lemma formatName_properties_witness :
  String.length (formatName "special-attack") = String.length "special-attack"
  ∧ hasChar "-" (formatName "special-attack") = false
  ∧ formatName (formatName "special-attack") = formatName "special-attack"
  ∧ formatName "pikachu" = capitalize "pikachu".
Proof.
  destruct (formatName_properties "special-attack" eq_refl)
    as (Hlength & Hhyphen & Hidemp & _).
  split_and!; [exact Hlength | exact Hhyphen | exact Hidemp |].
  apply (formatName_properties "pikachu"); reflexivity.
Defined.

(** * Moves *)

Example getLetsGoMoves_pikachu :
  lm_name <$> getLetsGoMoves (λ _ _, 0) pikachuMoves
  = ["thunder-shock"; "quick-attack"; "thunderbolt"].
Proof. reflexivity. Qed.

Lemma length_omap_le {A B} (f : A → option B) l :
  (length (omap f l) ≤ length l)%nat.
Proof.
  induction l as [|x l IH]; [done |].
  change (omap f (x :: l))
    with (match f x with Some y => y :: omap f l | None => omap f l end).
  destruct (f x); simpl; lia.
Qed.

Lemma filter_Forall_true {A} (f : A → bool) l :
  Forall (λ x, f x = true) l → List.filter f l = l.
Proof. induction 1 as [|x l Hx _ IH]; simpl; [done |]. by rewrite Hx, IH. Qed.

Lemma filter_Forall_false {A} (f : A → bool) l :
  Forall (λ x, f x = false) l → List.filter f l = [].
Proof. induction 1 as [|x l Hx _ IH]; simpl; [done |]. by rewrite Hx. Qed.

Lemma insertSorted_Permutation {A} (cmp : A → A → Z) x l :
  insertSorted cmp x l ≡ₚ x :: l.
Proof.
  induction l as [|y l IH]; simpl; [done |].
  destruct (cmp x y <=? 0); [done |].
  rewrite IH. apply Permutation_swap.
Qed.

Lemma sortWith_Permutation {A} (cmp : A → A → Z) l : sortWith cmp l ≡ₚ l.
Proof.
  induction l as [|x l IH]; simpl; [done |].
  by rewrite insertSorted_Permutation, IH.
Qed.

Lemma fold_pushLetsGoMove pokemonMoves : ∀ acc,
  fold_left pushLetsGoMove pokemonMoves acc
  = acc ++ omap letsGoMoveOf pokemonMoves.
Proof.
  induction pokemonMoves as [|e es IH]; intros acc; simpl.
  - by rewrite app_nil_r.
  - rewrite IH. unfold pushLetsGoMove, letsGoMoveOf.
    destruct (letsGoDetail e); simpl; [by rewrite <- app_assoc | done].
Qed.

Lemma letsGoDetail_first moveEntry detail :
  letsGoDetail moveEntry = Some detail
  ↔ ∃ before after,
      version_group_details moveEntry = before ++ detail :: after
      ∧ name (version_group detail) = LETS_GO_VERSION_GROUP
      ∧ Forall (λ d, name (version_group d) ≠ LETS_GO_VERSION_GROUP) before.
Proof.
  unfold letsGoDetail.
  induction (version_group_details moveEntry) as [|d ds IH]; simpl.
  - split; [done |]. intros (before & after & Heq & _).
    by destruct before.
  - destruct (String.eqb (name (version_group d)) LETS_GO_VERSION_GROUP)
      eqn:Hd.
    + apply String.eqb_eq in Hd. split.
      * intros [= <-]. by exists [], ds.
      * intros ([|b before] & after & Heq & Hname & Hbefore).
        -- by injection Heq as ->.
        -- injection Heq as -> _. by apply Forall_cons in Hbefore as [? _].
    + apply String.eqb_neq in Hd. rewrite IH. split.
      * intros (before & after & -> & Hname & Hbefore).
        exists (d :: before), after. split_and!; [done | done |].
        by constructor.
      * intros ([|b before] & after & Heq & Hname & Hbefore).
        -- injection Heq as -> _. done.
        -- injection Heq as -> ->.
           apply Forall_cons in Hbefore as [_ Hbefore]. by exists before, after.
Qed.

(** X10. The list [getLetsGoMoves] returns holds, in some order and once
    per entry, exactly the moves that have a detail for the Let's Go version
    group, each with the learn method and level of the first such detail;
    moves without one are left out. *)
Theorem getLetsGoMoves_content localeCompare pokemonMoves :
  getLetsGoMoves localeCompare pokemonMoves ≡ₚ omap letsGoMoveOf pokemonMoves
  ∧ (length (getLetsGoMoves localeCompare pokemonMoves)
     ≤ length pokemonMoves)%nat
  ∧ ∀ m, m ∈ getLetsGoMoves localeCompare pokemonMoves
      ↔ ∃ moveEntry before detail after,
          moveEntry ∈ pokemonMoves
          ∧ version_group_details moveEntry = before ++ detail :: after
          ∧ name (version_group detail) = LETS_GO_VERSION_GROUP
          ∧ Forall (λ d, name (version_group d) ≠ LETS_GO_VERSION_GROUP)
              before
          ∧ m = {| lm_name := name (move moveEntry);
                   lm_url := url (move moveEntry);
                   learnMethod := name (move_learn_method detail);
                   level := level_learned_at detail |}.
Proof.
  assert (Hperm : getLetsGoMoves localeCompare pokemonMoves
                  ≡ₚ omap letsGoMoveOf pokemonMoves).
  { unfold getLetsGoMoves.
    by rewrite sortWith_Permutation, fold_pushLetsGoMove. }
  split_and!; [done | |].
  - rewrite Hperm. apply length_omap_le.
  - intros m. rewrite Hperm, list_elem_of_omap. split.
    + intros (e & Hin & He). unfold letsGoMoveOf in He.
      destruct (letsGoDetail e) as [detail|] eqn:Hd; [| done].
      injection He as <-.
      apply letsGoDetail_first in Hd as (before & after & ? & ? & ?).
      by exists e, before, detail, after.
    + intros (e & before & detail & after & Hin & Hds & Hname & Hb & ->).
      exists e. split; [done |]. unfold letsGoMoveOf.
      rewrite (proj2 (letsGoDetail_first e detail)); [done |].
      by exists before, after.
Qed.

Lemma mayPrecede_skip localeCompare x y :
  0 < compareMoves localeCompare x y → mayPrecede y x.
Proof.
  unfold compareMoves, mayPrecede.
  destruct (isLevelUp x), (isLevelUp y); simpl; intros; try done; lia.
Qed.

Lemma mayPrecede_front localeCompare x y z :
  compareMoves localeCompare x y ≤ 0 →
  (mayPrecede x y) ∧ (mayPrecede y z → mayPrecede x z).
Proof.
  unfold compareMoves, mayPrecede.
  destruct (isLevelUp x), (isLevelUp y), (isLevelUp z); simpl; intros;
    split; intros; try done; try lia.
  all: try (split; [done |]); try (destruct_and?; lia).
  all: naive_solver lia.
Qed.

Lemma insertSorted_sorted localeCompare x l :
  StronglySorted mayPrecede l →
  StronglySorted mayPrecede (insertSorted (compareMoves localeCompare) x l).
Proof.
  induction 1 as [|y l Hl IH Hy]; simpl; [by repeat constructor |].
  destruct (compareMoves localeCompare x y <=? 0) eqn:Hcmp.
  - apply Z.leb_le in Hcmp. constructor; [by constructor |].
    constructor; [by apply (mayPrecede_front localeCompare x y y) |].
    eapply Forall_impl; [exact Hy |].
    intros z. by apply (mayPrecede_front localeCompare x y z).
  - apply Z.leb_gt in Hcmp. constructor; [done |].
    rewrite insertSorted_Permutation. constructor; [| done].
    by apply (mayPrecede_skip localeCompare).
Qed.

Lemma sortWith_sorted localeCompare l :
  StronglySorted mayPrecede (sortWith (compareMoves localeCompare) l).
Proof.
  induction l as [|x l IH]; simpl; [constructor |].
  by apply insertSorted_sorted.
Qed.

Lemma sorted_partition l :
  StronglySorted mayPrecede l →
  ∃ levelUps others,
    l = levelUps ++ others
    ∧ Forall (λ m, isLevelUp m = true) levelUps
    ∧ Forall (λ m, isLevelUp m = false) others
    ∧ StronglySorted (λ a b, level a ≤ level b) levelUps.
Proof.
  induction 1 as [|a l Hl (ups & others & -> & Hups & Hothers & Hsorted) Ha].
  - exists [], []. split_and!; constructor.
  - destruct (isLevelUp a) eqn:Hup.
    + exists (a :: ups), others. split_and!; [done | by constructor | done |].
      constructor; [done |].
      apply Forall_app in Ha as [Ha _].
      rewrite Forall_forall in Ha, Hups |- *.
      intros u Hu. by apply (Ha u Hu), Hups.
    + exists [], (a :: ups ++ others).
      split_and!; [done | constructor | | constructor].
      constructor; [done |].
      rewrite Forall_forall in Ha |- *. intros z Hz.
      destruct (isLevelUp z) eqn:Hzup; [| done].
      destruct (Ha z Hz Hzup) as [Hcontra _]. congruence.
Qed.

(** X11. In the list [getLetsGoMoves] returns, the level-up moves come
    first, in ascending order of level, and all other moves follow; so the
    level-up table of the detail page, which filters the list by learn
    method, is sorted by level.  This holds for any [localeCompare]. *)
Theorem getLetsGoMoves_order localeCompare pokemonMoves :
  ∃ levelUps others,
    getLetsGoMoves localeCompare pokemonMoves = levelUps ++ others
    ∧ Forall (λ m, learnMethod m = "level-up") levelUps
    ∧ Forall (λ m, learnMethod m ≠ "level-up") others
    ∧ StronglySorted (λ a b, level a ≤ level b) levelUps
    ∧ List.filter (λ m, String.eqb (learnMethod m) "level-up")
        (getLetsGoMoves localeCompare pokemonMoves) = levelUps.
Proof.
  destruct (sorted_partition _
              (sortWith_sorted localeCompare
                 (fold_left pushLetsGoMove pokemonMoves [])))
    as (ups & others & Heq & Hups & Hothers & Hsorted).
  exists ups, others. unfold getLetsGoMoves. rewrite Heq.
  split_and!; [done | | | done |].
  - eapply Forall_impl; [exact Hups |]. intros m. apply String.eqb_eq.
  - eapply Forall_impl; [exact Hothers |]. intros m. apply String.eqb_neq.
  - change (List.filter isLevelUp (ups ++ others) = ups).
    rewrite List.filter_app.
    rewrite (filter_Forall_true _ _ Hups), (filter_Forall_false _ _ Hothers).
    apply app_nil_r.
Qed.

(** * The Pokedex page *)

Example pageItems_examples :
  pageItems 8 (JS.Int 5)
  = [PageNumber 1; Ellipsis; PageNumber 4; PageNumber 5; PageNumber 6;
     Ellipsis; PageNumber 8]
  ∧ pageItems 8 (JS.Int 1)
    = [PageNumber 1; PageNumber 2; Ellipsis; PageNumber 8]
  ∧ pageItems 8 JS.NaN = [PageNumber 1; Ellipsis; PageNumber 8]
  ∧ pageItems 1 (JS.Int 1) = [PageNumber 1]
  ∧ pageItems 0 (JS.Int 1) = []
  ∧ totalPages 151 = 8
  ∧ getPokemonListEndpoint (JS.Int 20) (JS.Int 140)
    = "/pokemon?limit=11&offset=140".
Proof. split_and!; reflexivity. Qed.

(** X12. If the [page] parameter parses to an integer for which the
    offset of the request stays within [Number.MAX_SAFE_INTEGER] (any
    integer up to 450359962737050), the page number is at least 1, the
    offset is a non-negative multiple of 20 and offset plus limit does not
    exceed 151; the limit is the full page size up to page 7, and it is
    positive exactly up to page 8.  If the parameter does not parse, page,
    offset and limit are NaN. *)
Theorem browse_request_bounds page :
  (∀ n, JS.parseInt (default "1" page) = JS.Int n →
     (Z.max 1 n - 1) * PAGE_SIZE ≤ MAX_SAFE_INTEGER →
     ∃ p offset limit,
       currentPage page = JS.Int p
       ∧ pageOffset (currentPage page) = JS.Int offset
       ∧ pageLimit (currentPage page) = JS.Int limit
       ∧ p = Z.max 1 n
       ∧ offset = (p - 1) * 20
       ∧ limit ≤ 20
       ∧ offset + limit ≤ LETS_GO_MAX_POKEMON
       ∧ (p ≤ 7 → limit = 20)
       ∧ (1 ≤ limit ↔ p ≤ 8))
  ∧ (JS.parseInt (default "1" page) = JS.NaN →
       currentPage page = JS.NaN
       ∧ pageOffset (currentPage page) = JS.NaN
       ∧ pageLimit (currentPage page) = JS.NaN).
Proof.
  unfold pageLimit, pageOffset, currentPage, clampedLimit.
  split.
  - intros n -> _. simpl.
    exists (Z.max 1 n), ((Z.max 1 n - 1) * PAGE_SIZE),
      (Z.min PAGE_SIZE (LETS_GO_MAX_POKEMON - (Z.max 1 n - 1) * PAGE_SIZE)).
    unfold PAGE_SIZE, LETS_GO_MAX_POKEMON. split_and!; try done; lia.
  - by intros ->.
Qed.

Lemma browse_request_bounds_witness :
  ∃ p offset limit,
    currentPage (Some "8") = JS.Int p
    ∧ pageOffset (currentPage (Some "8")) = JS.Int offset
    ∧ pageLimit (currentPage (Some "8")) = JS.Int limit
    ∧ p = Z.max 1 8
    ∧ offset = (p - 1) * 20
    ∧ limit ≤ 20
    ∧ offset + limit ≤ LETS_GO_MAX_POKEMON
    ∧ (p ≤ 7 → limit = 20)
    ∧ (1 ≤ limit ↔ p ≤ 8).
Proof.
  apply (proj1 (browse_request_bounds (Some "8")) 8); [reflexivity |].
  unfold PAGE_SIZE, MAX_SAFE_INTEGER. lia.
Defined.

(** X13. The pages 1 to [totalPages 151] = 8 split the 151 list positions
    among them: every position 0..150 lies in the range
    [offset, offset + limit) of exactly one page. *)
Theorem browse_pages_partition i :
  0 ≤ i < LETS_GO_MAX_POKEMON →
  ∃ p, (1 ≤ p ≤ totalPages LETS_GO_MAX_POKEMON
        ∧ ∃ offset limit,
            pageOffset (JS.Int p) = JS.Int offset
            ∧ pageLimit (JS.Int p) = JS.Int limit
            ∧ offset ≤ i < offset + limit)
       ∧ ∀ p', 1 ≤ p' →
           (∃ offset limit,
              pageOffset (JS.Int p') = JS.Int offset
              ∧ pageLimit (JS.Int p') = JS.Int limit
              ∧ offset ≤ i < offset + limit) →
           p' = p.
Proof.
  intros Hi. unfold LETS_GO_MAX_POKEMON in Hi.
  exists (i `div` 20 + 1).
  change (totalPages LETS_GO_MAX_POKEMON) with 8.
  unfold pageLimit, pageOffset, clampedLimit, PAGE_SIZE, LETS_GO_MAX_POKEMON.
  simpl.
  pose proof (Z.div_mod i 20 ltac:(lia)) as Hdm.
  pose proof (Z.mod_pos_bound i 20 ltac:(lia)) as Hmod.
  split.
  - split; [lia |]. eexists _, _. split_and!; [done | done | lia | lia].
  - intros p' Hp' (offset & limit & [= <-] & [= <-] & Hlo & Hhi). lia.
Qed.

Lemma browse_pages_partition_witness :
  ∃ p, (1 ≤ p ≤ totalPages LETS_GO_MAX_POKEMON
        ∧ ∃ offset limit,
            pageOffset (JS.Int p) = JS.Int offset
            ∧ pageLimit (JS.Int p) = JS.Int limit
            ∧ offset ≤ 150 < offset + limit)
       ∧ ∀ p', 1 ≤ p' →
           (∃ offset limit,
              pageOffset (JS.Int p') = JS.Int offset
              ∧ pageLimit (JS.Int p') = JS.Int limit
              ∧ offset ≤ 150 < offset + limit) →
           p' = p.
Proof. apply (browse_pages_partition 150). unfold LETS_GO_MAX_POKEMON. lia. Defined.

(** ** The page bar *)

Lemma withEllipses_length prev pages :
  length (withEllipses prev pages)
  = (length pages + length (gapPages prev pages))%nat.
Proof.
  revert prev. induction pages as [|page rest IH]; intros prev; [done |].
  simpl. rewrite !length_app. simpl. rewrite IH.
  destruct prev as [q|]; [destruct (1 <? page - q) |]; simpl; lia.
Qed.

Lemma withEllipses_numbers prev pages page :
  PageNumber page ∈ withEllipses prev pages ↔ page ∈ pages.
Proof.
  revert prev. induction pages as [|p rest IH]; intros prev; simpl.
  - by rewrite !elem_of_nil.
  - rewrite elem_of_app, !elem_of_cons, IH.
    split; [| intros [-> | ?]; auto].
    intros [Hgap | [[= ->] | ?]]; auto.
    destruct prev as [q|]; [destruct (1 <? p - q) |];
      rewrite ?elem_of_cons, ?elem_of_nil in Hgap;
      by repeat destruct Hgap as [Hgap | Hgap].
Qed.

(** In an increasing list, a page that gets "..." in front is preceded by a
    page more than one below it, and the page just below it is missing. *)
Lemma gapPages_spec pages : ∀ prev,
  StronglySorted Z.lt pages →
  (∀ q, prev = Some q → Forall (Z.lt q) pages) →
  ∀ b, b ∈ gapPages prev pages →
    b ∈ pages ∧ ((b - 1) ∉ pages)
    ∧ ∃ q, (prev = Some q ∨ q ∈ pages) ∧ q < b - 1.
Proof.
  induction pages as [|page rest IH]; intros prev Hsorted Hprev b; simpl.
  - by intros ?%elem_of_nil.
  - apply StronglySorted_inv in Hsorted as [Hrest Hpage].
    rewrite elem_of_app. intros [Hb | Hb].
    + destruct prev as [q|]; [| by apply elem_of_nil in Hb].
      destruct (1 <? page - q) eqn:Hgap; [| by apply elem_of_nil in Hb].
      apply list_elem_of_singleton in Hb as ->. apply Z.ltb_lt in Hgap.
      split_and!; [by left | | exists q; split; [by left | lia]].
      intros [? | Hin]%elem_of_cons; [lia |].
      rewrite Forall_forall in Hpage. specialize (Hpage _ Hin). lia.
    + destruct (IH (Some page) Hrest) with (b := b)
        as (Hin & Hnotin & q & Hq & Hlt); [by intros ? [= <-] | done |].
      split_and!; [by right | | exists q; split; [| done]].
      * intros [Heq | ?]%elem_of_cons; [| done].
        rewrite Forall_forall in Hpage.
        destruct Hq as [[= <-] | Hq]; [lia |].
        specialize (Hpage _ Hq). lia.
      * destruct Hq as [[= <-] | Hq]; right; [by left | by right].
Qed.

Lemma gapPages_sublist pages : ∀ prev, gapPages prev pages `sublist_of` pages.
Proof.
  induction pages as [|page rest IH]; intros prev; simpl; [done |].
  destruct prev as [q|]; [destruct (1 <? page - q) |]; simpl.
  - by apply sublist_skip.
  - by apply sublist_cons.
  - by apply sublist_cons.
Qed.

Lemma seqZ_sorted m n : StronglySorted Z.lt (seqZ m n).
Proof.
  destruct (decide (n ≤ 0)) as [Hn | Hn]; [rewrite seqZ_nil by done; constructor |].
  rewrite <- (Z2Nat.id n) by lia. generalize (Z.to_nat n) as k. clear. intros k.
  revert m. induction k as [|k IH]; intros m.
  - rewrite seqZ_nil by lia. constructor.
  - rewrite seqZ_cons by lia.
    replace (Z.pred (Z.of_nat (S k))) with (Z.of_nat k) by lia.
    constructor; [apply IH |].
    apply Forall_forall. intros x Hx%elem_of_seqZ. lia.
Qed.

Lemma StronglySorted_sublist {A} (R : A → A → Prop) l1 l2 :
  l1 `sublist_of` l2 → StronglySorted R l2 → StronglySorted R l1.
Proof.
  induction 1 as [| x l1 l2 Hsub IH | x l1 l2 Hsub IH]; intros Hsorted.
  - constructor.
  - apply StronglySorted_inv in Hsorted as [Hrest Hx].
    constructor; [by apply IH |].
    rewrite Forall_forall in Hx |- *. intros y Hy.
    apply Hx. by eapply elem_of_sublist.
  - apply StronglySorted_inv in Hsorted as [Hrest _]. by apply IH.
Qed.

Lemma shownPages_sorted total current :
  StronglySorted Z.lt
    (filter (λ page, shownPage total current page) (seqZ 1 total)).
Proof.
  eapply StronglySorted_sublist; [apply sublist_filter | apply seqZ_sorted].
Qed.

Lemma elem_of_shownPages total current page :
  page ∈ filter (λ page, shownPage total current page) (seqZ 1 total)
  ↔ 1 ≤ page ≤ total ∧ shownPage total current page = true.
Proof.
  rewrite list_elem_of_filter, elem_of_seqZ, Is_true_true. split.
  - intros [? ?]. split; [lia | done].
  - intros [? ?]. split; [done | lia].
Qed.

Lemma withEllipses_pageNumbers pages : ∀ prev,
  omap pageNumberOf (withEllipses prev pages) = pages.
Proof.
  induction pages as [|p rest IH]; intros prev; [done |].
  simpl. rewrite omap_app.
  replace (omap pageNumberOf
             (match prev with
              | Some q => if 1 <? p - q then [Ellipsis] else []
              | None => []
              end)) with (@nil Z)
    by (destruct prev as [q|]; [destruct (1 <? p - q) |]; done).
  change (p :: omap pageNumberOf (withEllipses (Some p) rest) = p :: rest).
  by rewrite IH.
Qed.

(** X14. The page bar lists the pages 1..total that are the first page, the
    last page or within 1 of the current page, each once and in increasing
    order; so the first, the last and (when it exists) the current page are
    always reachable. *)
Theorem pageItems_numbers total current :
  (∀ page, PageNumber page ∈ pageItems total current
     ↔ 1 ≤ page ≤ total
       ∧ (page = 1 ∨ page = total
          ∨ ∃ c, current = JS.Int c ∧ c - 1 ≤ page ≤ c + 1))
  ∧ (1 ≤ total → PageNumber 1 ∈ pageItems total current
                 ∧ PageNumber total ∈ pageItems total current)
  ∧ (∀ c, current = JS.Int c → 1 ≤ c ≤ total →
       PageNumber c ∈ pageItems total current)
  ∧ StronglySorted Z.lt (omap pageNumberOf (pageItems total current)).
Proof.
  assert (Hmem : ∀ page, PageNumber page ∈ pageItems total current
     ↔ 1 ≤ page ≤ total
       ∧ (page = 1 ∨ page = total
          ∨ ∃ c, current = JS.Int c ∧ c - 1 ≤ page ≤ c + 1)).
  { intros page. unfold pageItems.
    rewrite withEllipses_numbers, elem_of_shownPages. unfold shownPage.
    rewrite !orb_true_iff, !Z.eqb_eq.
    destruct current as [|c].
    - split; [intros [? [[?|?]|?]]; [auto | auto | done] |].
      intros [? [?|[?|(c & ? & _)]]]; [auto | auto | done].
    - rewrite Z.leb_le. split.
      + intros [? [[?|?]|?]]; [auto | auto |].
        split; [done |]. right. right. exists c. split; [done | lia].
      + intros [? [?|[?|(c' & [= <-] & ?)]]]; [auto | auto |].
        split; [done |]. right. lia. }
  split_and!; [done | | |].
  - intros Htotal. split; apply Hmem; split; try lia; auto.
  - intros c -> Hc. apply Hmem. split; [done |].
    right. right. exists c. split; [done | lia].
  - unfold pageItems. rewrite withEllipses_pageNumbers.
    apply shownPages_sorted.
Qed.

Lemma pageItems_numbers_witness :
  (PageNumber 1 ∈ pageItems 8 (JS.Int 5)
   ∧ PageNumber 8 ∈ pageItems 8 (JS.Int 5))
  ∧ PageNumber 5 ∈ pageItems 8 (JS.Int 5).
Proof.
  split.
  - apply (proj1 (proj2 (pageItems_numbers 8 (JS.Int 5)))). lia.
  - apply (proj1 (proj2 (proj2 (pageItems_numbers 8 (JS.Int 5)))) 5);
      [reflexivity | lia].
Defined.

Lemma gapPages_shown total current b :
  b ∈ gapPages None
        (filter (λ page, shownPage total current page) (seqZ 1 total)) →
  b ∈ [total; match current with JS.Int c => c - 1 | JS.NaN => total end].
Proof.
  intros Hb.
  destruct (gapPages_spec _ None (shownPages_sorted total current)
              ltac:(done) b Hb) as (Hin & Hnotin & q & [? | Hq] & Hlt);
    [done |].
  rewrite elem_of_shownPages in Hin, Hnotin, Hq.
  destruct Hin as [Hrange Hshown], Hq as [Hqrange _].
  assert (Hbelow : shownPage total current (b - 1) = false).
  { destruct (shownPage total current (b - 1)) eqn:Hs; [| done].
    exfalso. apply Hnotin. split; [lia | done]. }
  unfold shownPage in Hshown, Hbelow.
  rewrite !elem_of_cons.
  apply orb_true_iff in Hshown as [[?%Z.eqb_eq | ?%Z.eqb_eq]%orb_true_iff | Hc];
    [lia | by left |].
  destruct current as [|c]; [done |].
  apply orb_false_iff in Hbelow as [_ Hbelow].
  apply Z.leb_le in Hc. apply Z.leb_gt in Hbelow. right. left. lia.
Qed.

(** X15. The page bar never has more than seven entries, however many pages
    there are: at most five page numbers and at most two "...". *)
Theorem pageItems_length total current :
  (length (pageItems total current) ≤ 7)%nat
  ∧ (length (omap pageNumberOf (pageItems total current)) ≤ 5)%nat.
Proof.
  unfold pageItems.
  rewrite withEllipses_length, withEllipses_pageNumbers.
  set (pages := filter (λ page, shownPage total current page) (seqZ 1 total)).
  assert (Hpages : (length pages ≤ 5)%nat).
  { etrans; [| apply (Nat.eq_le_incl
      (length ([1; total]
               ++ match current with
                  | JS.Int c => [c - 1; c; c + 1]
                  | JS.NaN => [1; 1; 1]
                  end))); by destruct current].
    apply submseteq_length, NoDup_submseteq.
    - apply NoDup_filter, NoDup_seqZ.
    - intros page [_ Hshown]%elem_of_shownPages. unfold shownPage in Hshown.
      rewrite elem_of_app, !elem_of_cons.
      apply orb_true_iff in Hshown
        as [[?%Z.eqb_eq | ?%Z.eqb_eq]%orb_true_iff | Hc]; [auto | auto |].
      destruct current as [|c]; [done |]. apply Z.leb_le in Hc.
      right. rewrite !elem_of_cons. lia. }
  assert (Hgaps : (length (gapPages None pages) ≤ 2)%nat).
  { change 2%nat with
      (length [total;
               match current with JS.Int c => c - 1 | JS.NaN => total end]).
    apply submseteq_length, NoDup_submseteq.
    - eapply sublist_NoDup; [| apply gapPages_sublist].
      apply NoDup_filter, NoDup_seqZ.
    - apply gapPages_shown. }
  split; lia.
Qed.

Lemma withEllipses_split prev pages before after :
  withEllipses prev pages = before ++ Ellipsis :: after →
  ∃ a b after',
    after = PageNumber b :: after'
    ∧ a + 1 < b
    ∧ (last before = Some (PageNumber a) ∨ (before = [] ∧ prev = Some a)).
Proof.
  revert prev before. induction pages as [|page rest IH]; intros prev before.
  - by destruct before.
  - simpl. destruct prev as [q|].
    + destruct (1 <? page - q) eqn:Hgap; simpl.
      * destruct before as [|item before]; simpl.
        -- intros [= <-]. apply Z.ltb_lt in Hgap.
           exists q, page, (withEllipses (Some page) rest).
           split_and!; [done | lia | by right].
        -- intros [= <- Heq]. destruct before as [|item before]; [done |].
           simpl in Heq. injection Heq as <- Heq.
           destruct (IH _ _ Heq) as (a & b & after' & -> & Hlt & Hlast).
           exists a, b, after'. split_and!; [done | done |]. left.
           destruct Hlast as [Hlast | [-> [= <-]]]; [| done].
           by rewrite !last_cons, Hlast.
      * destruct before as [|item before]; [done |].
        simpl. intros [= <- Heq].
        destruct (IH _ _ Heq) as (a & b & after' & -> & Hlt & Hlast).
        exists a, b, after'. split_and!; [done | done |]. left.
        destruct Hlast as [Hlast | [-> [= <-]]]; [| done].
        by rewrite last_cons, Hlast.
    + destruct before as [|item before]; [done |].
      simpl. intros [= <- Heq].
      destruct (IH _ _ Heq) as (a & b & after' & -> & Hlt & Hlast).
      exists a, b, after'. split_and!; [done | done |]. left.
      destruct Hlast as [Hlast | [-> [= <-]]]; [| done].
      by rewrite last_cons, Hlast.
Qed.

(** X16. A "..." of the page bar always stands between two page numbers
    that are not consecutive: it is never the first or the last entry and
    never next to another "...". *)
Theorem pageItems_ellipsis total current before after :
  pageItems total current = before ++ Ellipsis :: after →
  ∃ a b before' after',
    before = before' ++ [PageNumber a]
    ∧ after = PageNumber b :: after'
    ∧ a + 1 < b.
Proof.
  unfold pageItems. intros Heq.
  destruct (withEllipses_split _ _ _ _ Heq)
    as (a & b & after' & -> & Hlt & [Hlast | [_ ?]]); [| done].
  apply last_Some in Hlast as [before' ->].
  by exists a, b, before', after'.
Qed.

Lemma pageItems_ellipsis_witness :
  ∃ a b before' after',
    [PageNumber 1] = before' ++ [PageNumber a]
    ∧ [PageNumber 4; PageNumber 5; PageNumber 6; Ellipsis; PageNumber 8]
      = PageNumber b :: after'
    ∧ a + 1 < b.
Proof.
  apply (pageItems_ellipsis 8 (JS.Int 5) [PageNumber 1]
           [PageNumber 4; PageNumber 5; PageNumber 6; Ellipsis; PageNumber 8]).
  reflexivity.
Defined.

(** * The team builder *)

Lemma removeFromTeam_ids pokemonId prev :
  tm_id <$> removeFromTeam pokemonId prev
  = filter (λ i, i ≠ pokemonId) (tm_id <$> prev).
Proof.
  unfold removeFromTeam. induction prev as [|m prev IH]; [done |].
  rewrite fmap_cons, filter_cons. simpl.
  destruct (Z.eqb_spec (tm_id m) pokemonId) as [Heq | Hne]; simpl.
  - by rewrite decide_False by (by intros ?).
  - rewrite decide_True by done. rewrite <- IH. done.
Qed.

Lemma saveNickname_ids pokemonId input prev :
  tm_id <$> saveNickname pokemonId input prev = tm_id <$> prev.
Proof.
  unfold saveNickname. rewrite <- list_fmap_compose.
  apply list_fmap_ext. intros _ m _. simpl.
  by destruct (tm_id m =? pokemonId).
Qed.

Lemma existsb_ids pokemonId team :
  existsb (λ m, tm_id m =? pokemonId) team = true
  ↔ pokemonId ∈ tm_id <$> team.
Proof.
  rewrite existsb_exists, list_elem_of_fmap. split.
  - intros (m & Hin%list_elem_of_In & Heq%Z.eqb_eq). by exists m.
  - intros (m & -> & Hin). exists m. split; [by apply list_elem_of_In |].
    apply Z.eqb_refl.
Qed.

Lemma applyTeamAction_valid team a :
  validTeam team → validTeam (applyTeamAction team a).
Proof.
  intros [Hlen Hnd]. unfold validTeam, MAX_TEAM_SIZE in *.
  destruct a as [pokemonId n fetchedTypes now | pokemonId
                | pokemonId nicknameInput]; simpl.
  - unfold addToTeam, MAX_TEAM_SIZE.
    destruct (Nat.leb_spec 6 (length team)) as [Hfull | Hroom]; [done |].
    destruct (existsb _ team) eqn:Hex; [done |].
    rewrite length_app, fmap_app. simpl. split; [lia |].
    apply NoDup_app. split_and!; [done | | apply NoDup_singleton].
    intros i Hi ->%list_elem_of_singleton.
    apply existsb_ids in Hi. congruence.
  - split.
    + etrans; [| exact Hlen]. unfold removeFromTeam.
      rewrite <- (length_fmap tm_id), <- (length_fmap tm_id team).
      fold (removeFromTeam pokemonId team). rewrite removeFromTeam_ids.
      apply length_filter.
    + rewrite removeFromTeam_ids. by apply NoDup_filter.
  - split.
    + unfold saveNickname. by rewrite length_fmap.
    + by rewrite saveNickname_ids.
Qed.

(** X17. Starting from a team of at most six members with distinct ids (the
    empty team in particular), any sequence of additions, removals and
    nickname changes, each reading the state it is applied to, leaves a team
    of at most six members with distinct ids. *)
Theorem team_invariant team actions :
  validTeam team → validTeam (fold_left applyTeamAction actions team).
Proof.
  revert team. induction actions as [|a actions IH]; intros team Hvalid.
  - done.
  - simpl. by apply IH, applyTeamAction_valid.
Qed.

Lemma team_invariant_witness :
  validTeam
    (fold_left applyTeamAction
       [AddMember 25 "pikachu" ["electric"] 1000;
        AddMember 25 "pikachu" ["electric"] 2000;
        SaveNickname 25 "  Sparky ";
        AddMember 1 "bulbasaur" ["grass"; "poison"] 3000;
        RemoveMember 25]
       []).
Proof.
  apply (team_invariant []).
  split; [unfold MAX_TEAM_SIZE; simpl; lia | constructor].
Defined.

(** X18. [removeFromTeam] leaves no member with the given id and keeps all
    other members in their order; removing an id that is not on the team
    changes nothing, so adding a Pokemon that is not on the team and removing
    it again restores the team. *)
Theorem removeFromTeam_properties pokemonId prev :
  (pokemonId ∉ tm_id <$> removeFromTeam pokemonId prev)
  ∧ removeFromTeam pokemonId prev
    = filter (λ m, tm_id m ≠ pokemonId) prev
  ∧ (pokemonId ∉ tm_id <$> prev →
       removeFromTeam pokemonId prev = prev
       ∧ ∀ n fetchedTypes now,
           removeFromTeam pokemonId
             (addToTeam prev pokemonId n fetchedTypes now prev) = prev).
Proof.
  assert (Hfilter : removeFromTeam pokemonId prev
                    = filter (λ m, tm_id m ≠ pokemonId) prev).
  { unfold removeFromTeam. induction prev as [|m prev IH]; [done |].
    rewrite filter_cons. simpl.
    destruct (Z.eqb_spec (tm_id m) pokemonId) as [Heq | Hne]; simpl.
    - by rewrite decide_False by (by intros ?).
    - by rewrite decide_True, IH by done. }
  assert (Hid : ∀ team, pokemonId ∉ tm_id <$> team →
                        removeFromTeam pokemonId team = team).
  { intros team Hnotin. unfold removeFromTeam.
    apply filter_Forall_true, Forall_forall. intros m Hm.
    apply negb_true_iff, Z.eqb_neq. intros Heq. apply Hnotin.
    apply list_elem_of_fmap. by exists m. }
  split_and!; [| done |].
  - rewrite removeFromTeam_ids, list_elem_of_filter. by intros [? _].
  - intros Hnotin. split; [by apply Hid |].
    intros n fetchedTypes now. unfold addToTeam.
    destruct (MAX_TEAM_SIZE <=? length prev)%nat; [by apply Hid |].
    destruct (existsb _ prev); [by apply Hid |].
    unfold removeFromTeam. rewrite List.filter_app. simpl.
    rewrite Z.eqb_refl. simpl. fold (removeFromTeam pokemonId prev).
    by rewrite Hid, app_nil_r.
Qed.

Lemma removeFromTeam_properties_witness :
  (4 ∉ tm_id <$> removeFromTeam 4 starterTeam)
  ∧ removeFromTeam 4 starterTeam = starterTeam
  ∧ (∀ n fetchedTypes now,
       removeFromTeam 4 (addToTeam starterTeam 4 n fetchedTypes now starterTeam)
       = starterTeam)
  ∧ (25 ∉ tm_id <$> removeFromTeam 25 starterTeam)
  ∧ removeFromTeam 25 starterTeam
    = filter (λ m, tm_id m ≠ 25) starterTeam.
Proof.
  destruct (removeFromTeam_properties 4 starterTeam)
    as (Hgone & _ & Habsent).
  destruct (removeFromTeam_properties 25 starterTeam)
    as (Hgone' & Hfilter & _).
  assert (Hnotin : 4 ∉ tm_id <$> starterTeam).
  { apply (bool_decide_unpack _). vm_compute. exact I. }
  split_and!;
    [exact Hgone | apply (Habsent Hnotin) | apply (Habsent Hnotin)
    | exact Hgone' | exact Hfilter].
Defined.

(** * Flavor text *)

(** ** White-space characters *)

Lemma wsLen_0_inv c r :
  wsLen (String c r) = 0%nat →
  JS.ws1 (JS.code c) = false
  ∧ match r with
    | EmptyString => True
    | String c2 r2 =>
        JS.ws2 (JS.code c) (JS.code c2) = false
        ∧ match r2 with
          | EmptyString => True
          | String c3 _ => JS.ws3 (JS.code c) (JS.code c2) (JS.code c3) = false
          end
    end.
Proof.
  simpl. destruct (JS.ws1 (JS.code c)); [done |].
  destruct r as [|c2 r2]; [done |].
  destruct (JS.ws2 (JS.code c) (JS.code c2)); [done |].
  destruct r2 as [|c3 r3]; [done |].
  by destruct (JS.ws3 (JS.code c) (JS.code c2) (JS.code c3)).
Qed.

Lemma wsLen_0_intro c r :
  JS.ws1 (JS.code c) = false →
  match r with
  | EmptyString => True
  | String c2 r2 =>
      JS.ws2 (JS.code c) (JS.code c2) = false
      ∧ match r2 with
        | EmptyString => True
        | String c3 _ => JS.ws3 (JS.code c) (JS.code c2) (JS.code c3) = false
        end
  end →
  wsLen (String c r) = 0%nat.
Proof.
  simpl. intros ->. destruct r as [|c2 r2]; [done |].
  intros [-> H]. destruct r2 as [|c3 r3]; [done |]. by rewrite H.
Qed.

Lemma ws2_space a : JS.ws2 a (JS.code " ") = false.
Proof. change (JS.code " ") with 32. unfold JS.ws2. lia. Qed.

Lemma ws3_space_2 a d : JS.ws3 a (JS.code " ") d = false.
Proof. change (JS.code " ") with 32. unfold JS.ws3. lia. Qed.

Lemma ws3_space_3 a b : JS.ws3 a b (JS.code " ") = false.
Proof. change (JS.code " ") with 32. unfold JS.ws3. lia. Qed.

Lemma wsLen_space r : wsLen (String " " r) = 1%nat.
Proof. reflexivity. Qed.

Lemma wsLen_0_not_space c r :
  wsLen (String c r) = 0%nat → Ascii.eqb c " " = false.
Proof.
  intros H. destruct (Ascii.eqb_spec c " ") as [-> | ?]; [| done].
  by rewrite wsLen_space in H.
Qed.

(** What decides that no white-space character starts a string is kept
    when the bytes after the first are replaced by spaces or cut off. *)
Lemma wsLen_stable c r x :
  wsLen (String c r) = 0%nat → approximates x r → wsLen (String c x) = 0%nat.
Proof.
  intros [H1 H23]%wsLen_0_inv Hx. apply wsLen_0_intro; [done |].
  destruct x as [|a x']; [done |]. simpl in Hx.
  destruct Hx as [-> | (r' & -> & Hx')].
  - split; [apply ws2_space |]. destruct x'; [done | apply ws3_space_2].
  - destruct H23 as [H2 H3]. split; [done |].
    destruct x' as [|a' x'']; [done |]. simpl in Hx'.
    destruct Hx' as [-> | (r'' & ->)]; [apply ws3_space_3 | done].
Qed.

Lemma skipWhiteSpace_0 s : wsLen s = 0%nat → JS.skipWhiteSpace s = s.
Proof.
  destruct s as [|c r]; [done |].
  intros [H1 H23]%wsLen_0_inv. simpl. rewrite H1.
  destruct r as [|c2 r2]; [done |]. destruct H23 as [-> H3].
  destruct r2 as [|c3 r3]; [done |]. by rewrite H3.
Qed.

Lemma length_dropBytes k s :
  (String.length (dropBytes k s) ≤ String.length s)%nat.
Proof.
  revert s. induction k as [|k IH]; intros [|c r]; simpl; try lia.
  specialize (IH r). lia.
Qed.

(** ** Collapsing runs *)

Lemma replaceWhiteSpaceRuns_0 c r b :
  wsLen (String c r) = 0%nat →
  replaceWhiteSpaceRuns b (String c r)
  = String c (replaceWhiteSpaceRuns false r).
Proof.
  intros [H1 H23]%wsLen_0_inv. simpl. rewrite H1.
  destruct r as [|c2 r2]; [done |]. destruct H23 as [-> H3].
  destruct r2 as [|c3 r3]; [done |]. by rewrite H3.
Qed.

Lemma replaceWhiteSpaceRuns_S s k b :
  wsLen s = S k →
  replaceWhiteSpaceRuns b s
  = if b then replaceWhiteSpaceRuns true (dropBytes (S k) s)
    else String " " (replaceWhiteSpaceRuns true (dropBytes (S k) s)).
Proof.
  destruct s as [|c1 r1]; [done |]. simpl.
  destruct (JS.ws1 (JS.code c1)); [by intros [= <-] |].
  destruct r1 as [|c2 r2]; [done |].
  destruct (JS.ws2 (JS.code c1) (JS.code c2)); [by intros [= <-] |].
  destruct r2 as [|c3 r3]; [done |].
  destruct (JS.ws3 (JS.code c1) (JS.code c2) (JS.code c3)); [| done].
  by intros [= <-].
Qed.

Lemma replaceWhiteSpaceRuns_follows r :
  follows (replaceWhiteSpaceRuns false r) r.
Proof.
  destruct r as [|c r']; [done |].
  destruct (wsLen (String c r')) as [|k] eqn:Hlen.
  - rewrite replaceWhiteSpaceRuns_0 by done. right. by eexists.
  - rewrite (replaceWhiteSpaceRuns_S _ k) by done. by left.
Qed.

Lemma replaceWhiteSpaceRuns_approximates r :
  approximates (replaceWhiteSpaceRuns false r) r.
Proof.
  destruct r as [|c r']; [done |].
  destruct (wsLen (String c r')) as [|k] eqn:Hlen.
  - rewrite replaceWhiteSpaceRuns_0 by done. right. eexists. split; [done |].
    apply replaceWhiteSpaceRuns_follows.
  - rewrite (replaceWhiteSpaceRuns_S _ k) by done. by left.
Qed.

Lemma replaceWhiteSpaceRuns_spaced n : ∀ s b,
  (String.length s ≤ n)%nat →
  spaced true (replaceWhiteSpaceRuns b s) = true
  ∧ (b = true → wsLen (replaceWhiteSpaceRuns b s) = 0%nat).
Proof.
  induction n as [|n IH]; intros [|c r] b Hn; simpl in Hn; try done; try lia.
  destruct (wsLen (String c r)) as [|k] eqn:Hlen.
  - rewrite replaceWhiteSpaceRuns_0 by done.
    assert (Hstable : wsLen (String c (replaceWhiteSpaceRuns false r)) = 0%nat)
      by (eapply wsLen_stable; [done | apply replaceWhiteSpaceRuns_approximates]).
    split; [| done].
    cbn [spaced]. rewrite (wsLen_0_not_space _ _ Hlen), Hstable.
    by rewrite (proj1 (IH r false ltac:(lia))).
  - rewrite (replaceWhiteSpaceRuns_S _ k) by done.
    pose proof (length_dropBytes k r) as Hdrop.
    destruct (IH (dropBytes (S k) (String c r)) true ltac:(simpl; lia))
      as [Hsp Hws]. specialize (Hws eq_refl).
    destruct b; [done |]. split; [| done].
    cbn [spaced]. by rewrite Hws, Hsp.
Qed.

(** ** Trimming *)

Lemma isBlank_0 c r : wsLen (String c r) = 0%nat → JSString.isBlank (String c r) = false.
Proof. intros H. unfold JSString.isBlank. by rewrite skipWhiteSpace_0. Qed.

Lemma isBlank_space r : JSString.isBlank (String " " r) = JSString.isBlank r.
Proof. reflexivity. Qed.

Lemma trimEnd_follows r : follows (JSString.trimEnd r) r.
Proof.
  destruct r as [|c r']; [done |]. simpl.
  destruct (JSString.isBlank (String c r')); [done |]. right. by eexists.
Qed.

Lemma trimEnd_approximates r : approximates (JSString.trimEnd r) r.
Proof.
  destruct r as [|c r']; [done |]. simpl.
  destruct (JSString.isBlank (String c r')); [done |].
  right. eexists. split; [done | apply trimEnd_follows].
Qed.

Lemma trimEnd_0 c r :
  wsLen (String c r) = 0%nat →
  JSString.trimEnd (String c r) = String c (JSString.trimEnd r)
  ∧ wsLen (JSString.trimEnd (String c r)) = 0%nat.
Proof.
  intros H.
  assert (Heq : JSString.trimEnd (String c r) = String c (JSString.trimEnd r)).
  { cbn [JSString.trimEnd]. by rewrite isBlank_0. }
  split; [done |]. rewrite Heq.
  eapply wsLen_stable; [done | apply trimEnd_approximates].
Qed.

Lemma skipWhiteSpace_spaced v :
  spaced true v = true →
  spaced true (JS.skipWhiteSpace v) = true
  ∧ wsLen (JS.skipWhiteSpace v) = 0%nat.
Proof.
  destruct v as [|c r]; [done |]. cbn [spaced].
  destruct (Ascii.eqb_spec c " ") as [-> | Hc].
  - intros [[Hr%Nat.eqb_eq _]%andb_true_iff Hsp]%andb_true_iff.
    change (JS.skipWhiteSpace (String " " r)) with (JS.skipWhiteSpace r).
    by rewrite skipWhiteSpace_0.
  - intros [Hws%Nat.eqb_eq Hsp]%andb_true_iff.
    rewrite skipWhiteSpace_0 by done. split; [| done].
    cbn [spaced]. rewrite (proj2 (Ascii.eqb_neq _ _) Hc), Hsp.
    by rewrite Hws.
Qed.

Lemma trimEnd_spaced w :
  spaced true w = true → spaced false (JSString.trimEnd w) = true.
Proof.
  induction w as [|c r IH]; [done |]. cbn [spaced JSString.trimEnd].
  destruct (JSString.isBlank (String c r)) eqn:Hblank; [done |].
  destruct (Ascii.eqb_spec c " ") as [-> | Hc].
  - intros [[Hr%Nat.eqb_eq _]%andb_true_iff Hsp]%andb_true_iff.
    rewrite isBlank_space in Hblank.
    destruct r as [|c' r']; [done |].
    destruct (trimEnd_0 c' r' Hr) as [Heq Hws].
    cbn [spaced]. rewrite Ascii.eqb_refl, Hws, (IH Hsp), Heq. done.
  - intros [Hws%Nat.eqb_eq Hsp]%andb_true_iff.
    cbn [spaced]. rewrite (proj2 (Ascii.eqb_neq _ _) Hc), (IH Hsp).
    destruct (trimEnd_0 c r Hws) as [Heq Hws']. rewrite Heq in Hws'.
    by rewrite Hws'.
Qed.

Lemma trimEnd_wsLen_0 w :
  wsLen w = 0%nat → wsLen (JSString.trimEnd w) = 0%nat.
Proof. destruct w as [|c r]; [done |]. intros H. by apply trimEnd_0. Qed.

(** ** Clean text is a fixed point *)

Lemma spaced_weaken s : spaced false s = true → spaced true s = true.
Proof.
  induction s as [|c r IH]; [done |]. cbn [spaced].
  intros [Hc Hr]%andb_true_iff. rewrite (IH Hr), andb_true_r.
  destruct (Ascii.eqb c " "); [| done].
  apply andb_true_iff in Hc as [-> _]. done.
Qed.

Lemma replaceByteWithSpace_spaced c s :
  JS.ws1 (JS.code c) = true → spaced true s = true →
  replaceByteWithSpace c s = s.
Proof.
  intros Hc. induction s as [|c' r IH]; [done |]. cbn [spaced].
  intros [Hc' Hr]%andb_true_iff. simpl. rewrite (IH Hr).
  destruct (Ascii.eqb_spec c' c) as [-> | _]; [| done].
  destruct (Ascii.eqb c " ") eqn:Hsp; [by apply Ascii.eqb_eq in Hsp as -> |].
  apply Nat.eqb_eq, wsLen_0_inv in Hc' as [Hws1 _]. congruence.
Qed.

Lemma replaceWhiteSpaceRuns_fixed s : ∀ b,
  spaced true s = true → (b = true → wsLen s = 0%nat) →
  replaceWhiteSpaceRuns b s = s.
Proof.
  induction s as [|c r IH]; intros b; [done |]. cbn [spaced].
  destruct (Ascii.eqb_spec c " ") as [-> | Hc].
  - intros [[Hr%Nat.eqb_eq _]%andb_true_iff Hsp]%andb_true_iff Hb.
    destruct b; [by specialize (Hb eq_refl) |].
    change (replaceWhiteSpaceRuns false (String " " r))
      with (String " " (replaceWhiteSpaceRuns true r)).
    by rewrite IH.
  - intros [Hws%Nat.eqb_eq Hsp]%andb_true_iff _.
    rewrite replaceWhiteSpaceRuns_0 by done. by rewrite IH.
Qed.

Lemma trimEnd_fixed s : spaced false s = true → JSString.trimEnd s = s.
Proof.
  induction s as [|c r IH]; [done |]. cbn [spaced JSString.trimEnd].
  intros [Hc Hr]%andb_true_iff. rewrite (IH Hr).
  destruct (Ascii.eqb_spec c " ") as [-> | _].
  - apply andb_true_iff in Hc as [Hws%Nat.eqb_eq Hne].
    rewrite isBlank_space. destruct r as [|c' r']; [done |].
    by rewrite isBlank_0.
  - apply Nat.eqb_eq in Hc. by rewrite isBlank_0.
Qed.

Lemma cleanFlavorText_clean text : cleanText (cleanFlavorText text) = true.
Proof.
  unfold cleanFlavorText, JSString.trim, cleanText.
  set (u := replaceByteWithSpace _ _).
  destruct (replaceWhiteSpaceRuns_spaced (String.length u) u false
              ltac:(done)) as [Hv _].
  destruct (skipWhiteSpace_spaced _ Hv) as [Hw Hws].
  by rewrite (trimEnd_wsLen_0 _ Hws), (trimEnd_spaced _ Hw).
Qed.

Lemma cleanFlavorText_fixed s : cleanText s = true → cleanFlavorText s = s.
Proof.
  unfold cleanText. intros [Hws%Nat.eqb_eq Hsp]%andb_true_iff.
  pose proof (spaced_weaken _ Hsp) as Hsp'.
  unfold cleanFlavorText, JSString.trim.
  rewrite (replaceByteWithSpace_spaced "012" s) by done.
  rewrite (replaceByteWithSpace_spaced "010" s) by done.
  rewrite replaceWhiteSpaceRuns_fixed by done.
  rewrite skipWhiteSpace_0 by done. by apply trimEnd_fixed.
Qed.

(** X19. The text [cleanFlavorText] returns is clean: no white-space
    character stands at its start or end, and its only white space is
    single spaces between other characters; in particular it holds no
    form feed, newline or tab. *)
Theorem cleanFlavorText_normal_form text :
  cleanText (cleanFlavorText text) = true
  ∧ hasChar "012" (cleanFlavorText text) = false
  ∧ hasChar "010" (cleanFlavorText text) = false
  ∧ hasChar "009" (cleanFlavorText text) = false
  ∧ JS.skipWhiteSpace (cleanFlavorText text) = cleanFlavorText text
  ∧ JSString.trimEnd (cleanFlavorText text) = cleanFlavorText text.
Proof.
  pose proof (cleanFlavorText_clean text) as Hclean.
  generalize dependent (cleanFlavorText text). intros s Hclean.
  assert (Hno : ∀ c, JS.ws1 (JS.code c) = true → Ascii.eqb c " " = false →
                     hasChar c s = false).
  { intros c Hc Hsp. unfold cleanText in Hclean.
    apply andb_true_iff in Hclean as [_ Hspaced].
    induction s as [|c' r IH]; [done |]. cbn [spaced] in Hspaced.
    apply andb_true_iff in Hspaced as [Hc' Hr]. simpl. rewrite (IH Hr).
    rewrite orb_false_r.
    destruct (Ascii.eqb_spec c' c) as [-> | _]; [| done].
    rewrite Hsp in Hc'.
    apply Nat.eqb_eq, wsLen_0_inv in Hc' as [Hws1 _]. congruence. }
  split_and!; [done | by apply Hno | by apply Hno | by apply Hno | |].
  - apply skipWhiteSpace_0, Nat.eqb_eq.
    by apply andb_true_iff in Hclean as [? _].
  - apply trimEnd_fixed. by apply andb_true_iff in Hclean as [_ ?].
Qed.

(** X20. [cleanFlavorText] is idempotent, and it leaves clean text as it
    is. *)
Theorem cleanFlavorText_idempotent text :
  cleanFlavorText (cleanFlavorText text) = cleanFlavorText text
  ∧ (cleanText text = true → cleanFlavorText text = text).
Proof.
  split; [| apply cleanFlavorText_fixed].
  apply cleanFlavorText_fixed, cleanFlavorText_clean.
Qed.

Lemma cleanFlavorText_idempotent_witness :
  cleanFlavorText "It can go for days without eating a single morsel."
  = "It can go for days without eating a single morsel.".
Proof.
  apply (proj2 (cleanFlavorText_idempotent
                  "It can go for days without eating a single morsel.")).
  reflexivity.
Defined.

Lemma find_Some_first {A} (f : A → bool) l x :
  List.find f l = Some x
  ↔ ∃ before after,
      l = before ++ x :: after ∧ f x = true
      ∧ Forall (λ y, f y = false) before.
Proof.
  induction l as [|y l IH]; simpl.
  - split; [done |]. intros (before & after & Heq & _). by destruct before.
  - destruct (f y) eqn:Hy.
    + split.
      * intros [= <-]. by exists [], l.
      * intros ([|b before] & after & Heq & Hx & Hbefore).
        -- by injection Heq as ->.
        -- injection Heq as -> _.
           apply Forall_cons in Hbefore as [? _]. congruence.
    + rewrite IH. split.
      * intros (before & after & -> & Hx & Hbefore).
        exists (y :: before), after. split_and!; [done | done |].
        by constructor.
      * intros ([|b before] & after & Heq & Hx & Hbefore).
        -- injection Heq as -> _. congruence.
        -- injection Heq as -> ->.
           apply Forall_cons in Hbefore as [_ Hbefore].
           by exists before, after.
Qed.

Lemma find_None_all {A} (f : A → bool) l :
  List.find f l = None ↔ Forall (λ y, f y = false) l.
Proof.
  induction l as [|y l IH]; simpl; [by split; [constructor |] |].
  destruct (f y) eqn:Hy.
  - split; [done |]. intros [? _]%Forall_cons. congruence.
  - rewrite IH. split; [by constructor | by intros [_ ?]%Forall_cons].
Qed.

(** X21. [getEnglishFlavorText] returns the cleaned text of the first
    English entry of the Let's Go Pikachu version when there is one, even
    when other English entries come earlier; otherwise the cleaned text of
    the first English entry; and the empty string when no entry is English.
    The result is always clean. *)
Theorem getEnglishFlavorText_preference entries :
  (∀ before entry after,
     entries = before ++ entry :: after →
     isLetsGoEnglish entry = true →
     Forall (λ e, isLetsGoEnglish e = false) before →
     getEnglishFlavorText entries = cleanFlavorText (flavor_text entry))
  ∧ (∀ before entry after,
       Forall (λ e, isLetsGoEnglish e = false) entries →
       entries = before ++ entry :: after →
       isEnglish entry = true →
       Forall (λ e, isEnglish e = false) before →
       getEnglishFlavorText entries = cleanFlavorText (flavor_text entry))
  ∧ (Forall (λ e, isEnglish e = false) entries →
       getEnglishFlavorText entries = EmptyString)
  ∧ cleanText (getEnglishFlavorText entries) = true.
Proof.
  unfold getEnglishFlavorText.
  change (λ entry, String.eqb (name (language entry)) "en"
                   && String.eqb (name (version entry)) LETS_GO_VERSION)
    with isLetsGoEnglish.
  change (λ entry, String.eqb (name (language entry)) "en") with isEnglish.
  split_and!.
  - intros before entry after Heq Hentry Hbefore.
    rewrite (proj2 (find_Some_first isLetsGoEnglish entries entry)); [done |].
    by exists before, after.
  - intros before entry after Hnone Heq Hentry Hbefore.
    rewrite (proj2 (find_None_all isLetsGoEnglish entries) Hnone).
    rewrite (proj2 (find_Some_first isEnglish entries entry)); [done |].
    by exists before, after.
  - intros Hnone.
    assert (Hnone' : Forall (λ e, isLetsGoEnglish e = false) entries).
    { eapply Forall_impl; [exact Hnone |]. intros e He.
      unfold isLetsGoEnglish. unfold isEnglish in He. by rewrite He. }
    rewrite (proj2 (find_None_all isLetsGoEnglish entries) Hnone').
    by rewrite (proj2 (find_None_all isEnglish entries) Hnone).
  - destruct (List.find isLetsGoEnglish entries);
      [apply cleanFlavorText_clean |].
    destruct (List.find isEnglish entries); [apply cleanFlavorText_clean |].
    done.
Qed.

Lemma getEnglishFlavorText_preference_witness :
  getEnglishFlavorText
    ([flavorEntry "When several of these POKeMON gather" "en" "red";
      flavorEntry "Pikachu" "ja" "lets-go-pikachu"]
     ++ flavorEntry "Its nature is to store up electricity." "en"
          "lets-go-pikachu"
     :: [flavorEntry "It keeps its tail raised." "en" "sword"])
  = cleanFlavorText
      (flavor_text
         (flavorEntry "Its nature is to store up electricity." "en"
            "lets-go-pikachu")).
Proof.
  apply (proj1 (getEnglishFlavorText_preference _)
           [flavorEntry "When several of these POKeMON gather" "en" "red";
            flavorEntry "Pikachu" "ja" "lets-go-pikachu"]
           (flavorEntry "Its nature is to store up electricity." "en"
              "lets-go-pikachu")
           [flavorEntry "It keeps its tail raised." "en" "sword"]).
  - reflexivity.
  - reflexivity.
  - repeat constructor.
Defined.

Lemma skipWhiteSpace_S s k :
  wsLen s = S k → JS.skipWhiteSpace s = JS.skipWhiteSpace (dropBytes (S k) s).
Proof.
  destruct s as [|c1 r1]; [done |]. simpl.
  destruct (JS.ws1 (JS.code c1)); [by intros [= <-] |].
  destruct r1 as [|c2 r2]; [done |].
  destruct (JS.ws2 (JS.code c1) (JS.code c2)); [by intros [= <-] |].
  destruct r2 as [|c3 r3]; [done |].
  destruct (JS.ws3 (JS.code c1) (JS.code c2) (JS.code c3)); [| done].
  by intros [= <-].
Qed.

Lemma skipWhiteSpace_wsLen_bounded n : ∀ s,
  (String.length s ≤ n)%nat → wsLen (JS.skipWhiteSpace s) = 0%nat.
Proof.
  induction n as [|n IH]; intros [|c r] Hn; simpl in Hn; try done; try lia.
  destruct (wsLen (String c r)) as [|k] eqn:Hlen.
  - by rewrite skipWhiteSpace_0.
  - rewrite (skipWhiteSpace_S _ k) by done. apply IH.
    pose proof (length_dropBytes k r). simpl. lia.
Qed.

Lemma skipWhiteSpace_wsLen s : wsLen (JS.skipWhiteSpace s) = 0%nat.
Proof. by apply (skipWhiteSpace_wsLen_bounded (String.length s)). Qed.

(** [trim] drops all leading white space, and returns the empty string
    only for a blank string. *)
Lemma trim_properties s :
  wsLen (JSString.trim s) = 0%nat
  ∧ (JSString.trim s = EmptyString ↔ JSString.isBlank s = true).
Proof.
  unfold JSString.trim, JSString.isBlank.
  pose proof (skipWhiteSpace_wsLen s) as Hws.
  split; [by apply trimEnd_wsLen_0 |].
  destruct (JS.skipWhiteSpace s) as [|c r]; [done |].
  destruct (trimEnd_0 c r Hws) as [-> _]. done.
Qed.

Lemma nicknameOf_properties nicknameInput :
  (JSString.isBlank nicknameInput = true → nicknameOf nicknameInput = None)
  ∧ (JSString.isBlank nicknameInput = false →
       nicknameOf nicknameInput = Some (JSString.trim nicknameInput)
       ∧ JSString.trim nicknameInput ≠ EmptyString
       ∧ wsLen (JSString.trim nicknameInput) = 0%nat).
Proof.
  destruct (trim_properties nicknameInput) as [Hws Hblank].
  unfold nicknameOf. split.
  - intros Hb. by rewrite (proj2 Hblank Hb).
  - intros Hb.
    destruct (JSString.trim nicknameInput) as [|c r] eqn:Htrim.
    + rewrite (proj1 Hblank eq_refl) in Hb. done.
    + done.
Qed.

(** X22. [saveNickname] keeps the members, their ids and their order, and
    leaves the members with another id as they are.  A member with the given
    id keeps everything but its nickname: a blank input (empty or white
    space only) clears it, any other input sets it to the trimmed input,
    which is not empty and does not start with white space. *)
Theorem saveNickname_properties pokemonId nicknameInput prev :
  tm_id <$> saveNickname pokemonId nicknameInput prev = tm_id <$> prev
  ∧ Forall2
      (λ m m',
         tm_id m' = tm_id m ∧ tm_name m' = tm_name m ∧ sprite m' = sprite m
         ∧ types m' = types m ∧ addedAt m' = addedAt m
         ∧ (tm_id m ≠ pokemonId → m' = m)
         ∧ (tm_id m = pokemonId →
              nickname m'
              = if JSString.isBlank nicknameInput then None
                else Some (JSString.trim nicknameInput)))
      prev (saveNickname pokemonId nicknameInput prev)
  ∧ (JSString.isBlank nicknameInput = false →
       JSString.trim nicknameInput ≠ EmptyString
       ∧ wsLen (JSString.trim nicknameInput) = 0%nat).
Proof.
  destruct (nicknameOf_properties nicknameInput) as [Hblank Hset].
  split_and!.
  - apply saveNickname_ids.
  - unfold saveNickname. apply Forall2_fmap_r, Forall_Forall2_diag.
    apply Forall_true. intros m. unfold compose. cbn beta.
    destruct (Z.eqb_spec (tm_id m) pokemonId) as [Heq | Hne]; simpl.
    + split_and!; [done.. | by intros ? |].
      intros _.
      destruct (JSString.isBlank nicknameInput); [by apply Hblank |].
      by apply Hset.
    + by split_and!.
  - intros Hb. by apply Hset.
Qed.

Lemma saveNickname_properties_witness :
  ∃ pikachu bulbasaur,
    saveNickname 25 "  Sparky " starterTeam = [pikachu; bulbasaur]
    ∧ nickname pikachu = Some "Sparky"
    ∧ tm_name pikachu = "pikachu"
    ∧ bulbasaur = teamMemberOf 1 "bulbasaur" ["grass"; "poison"]
    ∧ JSString.trim "  Sparky " ≠ EmptyString
    ∧ wsLen (JSString.trim "  Sparky ") = 0%nat.
Proof.
  destruct (saveNickname_properties 25 "  Sparky " starterTeam)
    as (_ & Hmembers & Htrim).
  apply Forall2_cons_1 in Hmembers as [Hpikachu Hrest].
  apply Forall2_cons_1 in Hrest as [Hbulbasaur _].
  destruct Hpikachu as (_ & Hname & _ & _ & _ & _ & Hnickname).
  destruct Hbulbasaur as (_ & _ & _ & _ & _ & Hsame & _).
  eexists _, _. split; [reflexivity |].
  split_and!.
  - exact (Hnickname eq_refl).
  - exact Hname.
  - apply Hsame. discriminate.
  - apply Htrim. reflexivity.
  - apply Htrim. reflexivity.
Defined.

(** * Search *)

Example searchPokemon_examples :
  sr_name <$> searchPokemon " CHAR " pokemonList
  = ["charmander"; "charmeleon"; "charizard"]
  ∧ sr_id <$> searchPokemon "chu" pokemonList = [JS.Int 25; JS.Int 26]
  ∧ searchPokemon "   " pokemonList = [].
Proof. split_and!; reflexivity. Qed.

(** ** Lower case and white space *)

Lemma code_lowerChar c :
  JS.code (JSString.lowerChar c)
  = if (65 <=? JS.code c) && (JS.code c <=? 90)
    then JS.code c + 32 else JS.code c.
Proof. by destruct c as [[] [] [] [] [] [] [] []]. Qed.

Lemma lowerChar_cases c :
  JSString.lowerChar c = c
  ∨ (65 ≤ JS.code c ≤ 122 ∧ 65 ≤ JS.code (JSString.lowerChar c) ≤ 122).
Proof.
  pose proof (code_lowerChar c) as Hcode. unfold JSString.lowerChar in *.
  destruct ((65 <=? JS.code c) && (JS.code c <=? 90)) eqn:H; [| by left].
  right. lia.
Qed.

Lemma ws1_letter a : 65 ≤ a ≤ 122 → JS.ws1 a = false.
Proof. unfold JS.ws1. lia. Qed.

Lemma ws2_letter_1 a b : 65 ≤ a ≤ 122 → JS.ws2 a b = false.
Proof. unfold JS.ws2. lia. Qed.

Lemma ws2_letter_2 a b : 65 ≤ b ≤ 122 → JS.ws2 a b = false.
Proof. unfold JS.ws2. lia. Qed.

Lemma ws3_letter_1 a b d : 65 ≤ a ≤ 122 → JS.ws3 a b d = false.
Proof. unfold JS.ws3. lia. Qed.

Lemma ws3_letter_2 a b d : 65 ≤ b ≤ 122 → JS.ws3 a b d = false.
Proof. unfold JS.ws3. lia. Qed.

Lemma ws3_letter_3 a b d : 65 ≤ d ≤ 122 → JS.ws3 a b d = false.
Proof. unfold JS.ws3. lia. Qed.

Lemma ws1_lowerChar a :
  JS.ws1 (JS.code (JSString.lowerChar a)) = JS.ws1 (JS.code a).
Proof.
  destruct (lowerChar_cases a) as [-> | [? ?]]; [done |].
  by rewrite !ws1_letter.
Qed.

Lemma ws2_lowerChar a b :
  JS.ws2 (JS.code (JSString.lowerChar a)) (JS.code (JSString.lowerChar b))
  = JS.ws2 (JS.code a) (JS.code b).
Proof.
  destruct (lowerChar_cases a) as [-> | [? ?]];
    [| by rewrite !ws2_letter_1].
  destruct (lowerChar_cases b) as [-> | [? ?]]; [done |].
  by rewrite !ws2_letter_2.
Qed.

Lemma ws3_lowerChar a b d :
  JS.ws3 (JS.code (JSString.lowerChar a)) (JS.code (JSString.lowerChar b))
    (JS.code (JSString.lowerChar d))
  = JS.ws3 (JS.code a) (JS.code b) (JS.code d).
Proof.
  destruct (lowerChar_cases a) as [-> | [? ?]];
    [| by rewrite !ws3_letter_1].
  destruct (lowerChar_cases b) as [-> | [? ?]];
    [| by rewrite !ws3_letter_2].
  destruct (lowerChar_cases d) as [-> | [? ?]]; [done |].
  by rewrite !ws3_letter_3.
Qed.

Lemma wsLen_toLowerCase s : wsLen (JSString.toLowerCase s) = wsLen s.
Proof.
  destruct s as [|c1 [|c2 [|c3 r3]]]; simpl;
    by rewrite ?ws1_lowerChar, ?ws2_lowerChar, ?ws3_lowerChar.
Qed.

Lemma dropBytes_toLowerCase k s :
  dropBytes k (JSString.toLowerCase s) = JSString.toLowerCase (dropBytes k s).
Proof.
  revert s. induction k as [|k IH]; intros [|c r]; simpl; try done.
Qed.

Lemma skipWhiteSpace_toLowerCase_bounded n : ∀ s,
  (String.length s ≤ n)%nat →
  JS.skipWhiteSpace (JSString.toLowerCase s)
  = JSString.toLowerCase (JS.skipWhiteSpace s).
Proof.
  induction n as [|n IH]; intros [|c r] Hn; simpl in Hn; try done; try lia.
  destruct (wsLen (String c r)) as [|k] eqn:Hlen.
  - rewrite (skipWhiteSpace_0 (String c r)) by done.
    apply skipWhiteSpace_0. by rewrite wsLen_toLowerCase.
  - rewrite (skipWhiteSpace_S (String c r) k) by done.
    rewrite (skipWhiteSpace_S (JSString.toLowerCase (String c r)) k)
      by by rewrite wsLen_toLowerCase.
    rewrite dropBytes_toLowerCase. apply IH.
    pose proof (length_dropBytes k r). simpl. lia.
Qed.

Lemma skipWhiteSpace_toLowerCase s :
  JS.skipWhiteSpace (JSString.toLowerCase s)
  = JSString.toLowerCase (JS.skipWhiteSpace s).
Proof. by apply (skipWhiteSpace_toLowerCase_bounded (String.length s)). Qed.

Lemma isBlank_toLowerCase s :
  JSString.isBlank (JSString.toLowerCase s) = JSString.isBlank s.
Proof.
  unfold JSString.isBlank. rewrite skipWhiteSpace_toLowerCase.
  by destruct (JS.skipWhiteSpace s).
Qed.

Lemma trimEnd_toLowerCase s :
  JSString.trimEnd (JSString.toLowerCase s)
  = JSString.toLowerCase (JSString.trimEnd s).
Proof.
  induction s as [|c r IH]; [done |].
  change (JSString.toLowerCase (String c r))
    with (String (JSString.lowerChar c) (JSString.toLowerCase r)).
  cbn [JSString.trimEnd].
  change (String (JSString.lowerChar c) (JSString.toLowerCase r))
    with (JSString.toLowerCase (String c r)).
  rewrite isBlank_toLowerCase.
  destruct (JSString.isBlank (String c r)); [done |].
  simpl. by rewrite IH.
Qed.

Lemma trim_toLowerCase s :
  JSString.trim (JSString.toLowerCase s)
  = JSString.toLowerCase (JSString.trim s).
Proof.
  unfold JSString.trim.
  by rewrite skipWhiteSpace_toLowerCase, trimEnd_toLowerCase.
Qed.

(** ** [includes] *)

Lemma startsWith_spec s sub :
  JSString.startsWith s sub = true ↔ ∃ post, s = sub +:+ post.
Proof.
  revert s. induction sub as [|a sub IH]; intros s.
  - split; [intros _; exists s; reflexivity | by destruct s].
  - destruct s as [|b s]; simpl.
    + split; [done | by intros (post & ?)].
    + rewrite andb_true_iff, Ascii.eqb_eq, IH. split.
      * intros [-> (post & ->)]. by exists post.
      * intros (post & Heq). rewrite append_cons in Heq.
        injection Heq as -> ->. split; [done | by exists post].
Qed.

Lemma includes_spec s sub :
  JSString.includes s sub = true ↔ ∃ pre post, s = pre +:+ sub +:+ post.
Proof.
  induction s as [|c r IH]; cbn [JSString.includes];
    rewrite orb_true_iff, startsWith_spec.
  - split.
    + intros [(post & ->) | ?]; [by exists EmptyString, post | done].
    + intros ([|c pre] & post & Heq); [left; by exists post | done].
  - rewrite IH. split.
    + intros [(post & ->) | (pre & post & ->)].
      * by exists EmptyString, post.
      * by exists (String c pre), post.
    + intros ([|c' pre] & post & Heq).
      * left. by exists post.
      * rewrite append_cons in Heq. injection Heq as -> ->.
        right. by exists pre, post.
Qed.

Lemma truthy_trim query :
  JS.truthy (JSString.trim query) = negb (JSString.isBlank query).
Proof.
  destruct (trim_properties query) as [_ Hblank].
  destruct (JSString.isBlank query).
  - by rewrite (proj2 Hblank eq_refl).
  - destruct (JSString.trim query); [| done].
    by rewrite (proj1 Hblank eq_refl).
Qed.

(** X23. For an ASCII query: a blank query (empty or white space only)
    finds nothing.  For any other query the pattern, the lower-cased and
    trimmed query, is not empty, and the results are exactly the entries of
    the list whose name contains the pattern, in the order of the list, each
    with the name and URL of its entry and the id read off the URL. *)
Theorem searchPokemon_results query results :
  isAscii query = true →
  (JSString.isBlank query = true → searchPokemon query results = [])
  ∧ (JSString.isBlank query = false →
       JSString.toLowerCase (JSString.trim query) ≠ EmptyString
       ∧ ∃ found,
           found `sublist_of` results
           ∧ searchPokemon query results
             = (λ p, {| sr_name := name p; sr_url := url p;
                        sr_id := urlId (url p) |}) <$> found
           ∧ ∀ p, p ∈ found
               ↔ p ∈ results
                 ∧ ∃ pre post,
                     name p
                     = pre +:+ JSString.toLowerCase (JSString.trim query)
                       +:+ post).
Proof.
  intros _.
  unfold searchPokemon. rewrite truthy_trim, trim_toLowerCase. split.
  - by intros ->.
  - intros Hb. rewrite Hb. simpl. split.
    + destruct (trim_properties query) as [_ Hblank].
      destruct (JSString.trim query) as [|c r]; [| done].
      rewrite (proj1 Hblank eq_refl) in Hb. done.
    + eexists. split_and!; [| reflexivity |].
      * induction results as [|p ps IH]; simpl; [done |].
        destruct (JSString.includes _ _);
          [by apply sublist_skip | by apply sublist_cons].
      * intros p. rewrite list_elem_of_In, List.filter_In, <- list_elem_of_In.
        by rewrite includes_spec.
Qed.

Lemma searchPokemon_results_witness :
  searchPokemon "   " pokemonList = []
  ∧ JSString.toLowerCase (JSString.trim " CHAR ") ≠ EmptyString
  ∧ ∃ found,
      found `sublist_of` pokemonList
      ∧ searchPokemon " CHAR " pokemonList
        = (λ p, {| sr_name := name p; sr_url := url p;
                   sr_id := urlId (url p) |}) <$> found
      ∧ ∀ p, p ∈ found
          ↔ p ∈ pokemonList
            ∧ ∃ pre post,
                name p
                = pre +:+ JSString.toLowerCase (JSString.trim " CHAR ")
                  +:+ post.
Proof.
  split.
  - apply (proj1 (searchPokemon_results "   " pokemonList eq_refl)).
    reflexivity.
  - apply (proj2 (searchPokemon_results " CHAR " pokemonList eq_refl)).
    reflexivity.
Defined.

(** X24. The search does not distinguish upper and lower case in the query:
    two queries with the same lower-case form give the same results. *)
Theorem searchPokemon_case_insensitive query query' results :
  JSString.toLowerCase query' = JSString.toLowerCase query →
  searchPokemon query' results = searchPokemon query results.
Proof.
  intros Hlower. unfold searchPokemon. rewrite !truthy_trim, Hlower.
  by rewrite <- (isBlank_toLowerCase query'), Hlower, isBlank_toLowerCase.
Qed.

Lemma searchPokemon_case_insensitive_witness :
  searchPokemon "PikaCHU" pokemonList = searchPokemon "pikachu" pokemonList.
Proof.
  apply (searchPokemon_case_insensitive "pikachu" "PikaCHU" pokemonList).
  reflexivity.
Defined.

(** * Moves, continued: the order among all moves *)

Section MovesSorted.

Variable localeCompare : string → string → Z.

(** What makes [localeCompare] a consistent comparison: it orders
    transitively and any two names are comparable. *)
Hypothesis localeCompare_trans : ∀ a b c,
  localeCompare a b ≤ 0 → localeCompare b c ≤ 0 → localeCompare a c ≤ 0.
Hypothesis localeCompare_total : ∀ a b,
  0 < localeCompare a b → localeCompare b a ≤ 0.

Lemma compareMoves_trans a b c :
  compareMoves localeCompare a b ≤ 0 → compareMoves localeCompare b c ≤ 0 →
  compareMoves localeCompare a c ≤ 0.
Proof.
  unfold compareMoves.
  destruct (isLevelUp a), (isLevelUp b), (isLevelUp c); simpl; try lia.
  apply localeCompare_trans.
Qed.

Lemma compareMoves_total a b :
  0 < compareMoves localeCompare a b → compareMoves localeCompare b a ≤ 0.
Proof.
  unfold compareMoves.
  destruct (isLevelUp a), (isLevelUp b); simpl; try lia.
  apply localeCompare_total.
Qed.

Lemma insertSorted_compare x l :
  StronglySorted (λ a b, compareMoves localeCompare a b ≤ 0) l →
  StronglySorted (λ a b, compareMoves localeCompare a b ≤ 0)
    (insertSorted (compareMoves localeCompare) x l).
Proof.
  induction 1 as [|y l Hl IH Hy]; simpl; [by repeat constructor |].
  destruct (compareMoves localeCompare x y <=? 0) eqn:Hcmp.
  - apply Z.leb_le in Hcmp. constructor; [by constructor |].
    constructor; [done |].
    eapply Forall_impl; [exact Hy |]. intros z Hz.
    by apply (compareMoves_trans x y z).
  - apply Z.leb_gt in Hcmp. constructor; [done |].
    rewrite insertSorted_Permutation. constructor; [| done].
    by apply compareMoves_total.
Qed.

(** X25. When [localeCompare] is a consistent comparison (transitive, and
    any two names comparable), the list [getLetsGoMoves] returns is sorted
    with respect to the comparison function of the source: no move compares
    greater than a move that comes after it.  In particular the moves that
    are not level-up moves are in [localeCompare] order of their names. *)
Theorem getLetsGoMoves_sorted pokemonMoves :
  StronglySorted (λ a b, compareMoves localeCompare a b ≤ 0)
    (getLetsGoMoves localeCompare pokemonMoves)
  ∧ StronglySorted (λ a b, localeCompare (lm_name a) (lm_name b) ≤ 0)
      (List.filter (λ m, negb (isLevelUp m))
         (getLetsGoMoves localeCompare pokemonMoves)).
Proof.
  assert (Hsorted : StronglySorted (λ a b, compareMoves localeCompare a b ≤ 0)
                      (getLetsGoMoves localeCompare pokemonMoves)).
  { unfold getLetsGoMoves, sortWith.
    induction (fold_left pushLetsGoMove pokemonMoves []) as [|x l IH]; simpl;
      [constructor | by apply insertSorted_compare]. }
  split; [done |].
  induction Hsorted as [|a l Hl IH Ha]; simpl; [constructor |].
  destruct (isLevelUp a) eqn:Hup; simpl; [done |].
  constructor; [done |].
  apply Forall_forall. intros z [Hz Hzup]%list_elem_of_In%List.filter_In.
  rewrite Forall_forall in Ha. specialize (Ha z (proj2 (list_elem_of_In _ _) Hz)).
  unfold compareMoves in Ha. rewrite Hup in Ha.
  apply negb_true_iff in Hzup. by rewrite Hzup in Ha.
Qed.

End MovesSorted.

Lemma getLetsGoMoves_sorted_witness :
  StronglySorted
    (λ a b,
       compareMoves
         (λ x y, Z.of_nat (String.length x) - Z.of_nat (String.length y))
         a b ≤ 0)
    (getLetsGoMoves
       (λ x y, Z.of_nat (String.length x) - Z.of_nat (String.length y))
       pikachuMoves)
  ∧ StronglySorted
      (λ a b,
         Z.of_nat (String.length (lm_name a))
         - Z.of_nat (String.length (lm_name b)) ≤ 0)
      (List.filter (λ m, negb (isLevelUp m))
         (getLetsGoMoves
            (λ x y, Z.of_nat (String.length x) - Z.of_nat (String.length y))
            pikachuMoves)).
Proof.
  apply (getLetsGoMoves_sorted
           (λ x y, Z.of_nat (String.length x) - Z.of_nat (String.length y))).
  - intros a b c. lia.
  - intros a b. lia.
Defined.
